(** * Cued-speech drill assistant: a shallow embedding of [app.js]

    The page shows a picture and a target phrase, listens to the learner
    through a Vosk recogniser restricted to the target vocabulary, and
    judges the final recognition result against the current target with a
    deliberately low confidence threshold.

    The development follows the source file top to bottom:
    - [JsString]: the string primitives the script relies on
      ([toLowerCase], [trim], [split], [join]);
    - [JsNumber]: the two kinds of numbers that occur, array indices and
      IEEE 754 confidences;
    - the global variables, the DOM fields the script writes, and the
      handlers [loadTargets], [setupRecognizer], [checkResult],
      [updateTarget], [startRecognition], [stopRecognition], [nextTarget],
      written in a state-passing style with exceptions;
    - the page as a system driven by the browser's events;
    - the properties of the handlers. *)

From Stdlib Require Import Ascii String List NArith ZArith Bool Lia Floats.
Import ListNotations.

Set Implicit Arguments.
Set Warnings "-inexact-float".

(* ================================================================== *)
(** * JavaScript strings *)
(* ================================================================== *)

Module JsString.

(** A string is its sequence of code units.  The model covers the code
    units below U+0100 (Basic Latin and Latin-1 Supplement), one [ascii]
    each. *)
Definition str : Type := list ascii.

Definition lit (s : string) : str := list_ascii_of_string s.

Definition str_eqb (a b : str) : bool :=
  if list_eq_dec ascii_dec a b then true else false.

(** ECMAScript [WhiteSpace] and [LineTerminator] code points below U+0100:
    TAB, LF, VT, FF, CR, SP and NBSP. *)
Definition isWhiteSpace (c : ascii) : bool :=
  let n := N_of_ascii c in
  ((9 <=? n) && (n <=? 13) || (n =? 32) || (n =? 160))%N.

(** [String.prototype.toLowerCase], code unit by code unit: A-Z and the
    Latin-1 capitals U+00C0-U+00DE (the multiplication sign U+00D7
    excepted) move up by 32. *)
Definition lowerChar (c : ascii) : ascii :=
  let n := N_of_ascii c in
  if ((65 <=? n) && (n <=? 90)
      || (192 <=? n) && (n <=? 222) && negb (n =? 215))%N
  then ascii_of_N (n + 32) else c.

Definition toLowerCase (s : str) : str := map lowerChar s.

(** [String.prototype.trim]: white space is removed from both ends. *)
Fixpoint trimStart (s : str) : str :=
  match s with
  | [] => []
  | c :: r => if isWhiteSpace c then trimStart r else s
  end.

Fixpoint trimEnd (s : str) : str :=
  match s with
  | [] => []
  | c :: r =>
      match trimEnd r with
      | [] => if isWhiteSpace c then [] else [c]
      | r' => c :: r'
      end
  end.

Definition trim (s : str) : str := trimStart (trimEnd s).

(** [s.split(sep)] for a one-character separator.  The result is never
    empty: the empty string splits into one empty field. *)
Definition consHead (c : ascii) (fields : list str) : list str :=
  match fields with
  | [] => [[c]]
  | f :: fs => (c :: f) :: fs
  end.

Fixpoint split (sep : ascii) (s : str) : list str :=
  match s with
  | [] => [[]]
  | c :: r => if Ascii.eqb c sep then [] :: split sep r
              else consHead c (split sep r)
  end.

(** [parts.join(sep)]. *)
Fixpoint join (sep : str) (parts : list str) : str :=
  match parts with
  | [] => []
  | [p] => p
  | p :: ps => p ++ sep ++ join sep ps
  end.

Definition underscore : ascii := "_"%char.
Definition space : ascii := " "%char.
Definition comma : ascii := ","%char.
Definition newline : ascii := ascii_of_nat 10.

(** The character-wise reading of [s.split('_').join(' ')]. *)
Definition underscoreToSpace (c : ascii) : ascii :=
  if Ascii.eqb c underscore then space else c.

Definition replaceUnderscores (s : str) : str := map underscoreToSpace s.

End JsString.

Import JsString.

(* ================================================================== *)
(** * JavaScript numbers *)
(* ================================================================== *)

Module JsNumber.

(** [currentTargetIndex] only ever holds an integer or [NaN] (the
    remainder by an empty array's length). *)
Inductive index : Type :=
| Int (z : Z)
| NaN.

(** [(i + 1) % n] for an array length [n]: the remainder has the sign of
    the dividend, and is [NaN] when the divisor is zero. *)
Definition succRem (i : index) (n : nat) : index :=
  match i, n with
  | NaN, _ => NaN
  | Int _, O => NaN
  | Int z, _ => Int (Z.rem (z + 1) (Z.of_nat n))
  end.

(** [arr[i]]: [undefined] outside the array and at [NaN]. *)
Definition at_index {A : Type} (arr : list A) (i : index) : option A :=
  match i with
  | NaN => None
  | Int z => if (z <? 0)%Z then None else nth_error arr (Z.to_nat z)
  end.

(** Confidences are binary64 numbers, as in the script. *)
Definition CONFIDENCE_THRESHOLD : float := 0x1.3333333333333p-2%float.

(** Truthiness of a number: everything but [+0], [-0] and [NaN]. *)
Definition truthy (f : float) : bool :=
  negb (PrimFloat.is_zero f || PrimFloat.is_nan f).

(** [conf || 0] where [conf] may be missing. *)
Definition orZero (conf : option float) : float :=
  match conf with
  | Some f => if truthy f then f else PrimFloat.zero
  | None => PrimFloat.zero
  end.

(** [a >= b]. *)
Definition geb (a b : float) : bool := PrimFloat.leb b a.

End JsNumber.

Import JsNumber.

(* ================================================================== *)
(** * The application state *)
(* ================================================================== *)

(** One line of the targets file. *)
Record DrillItem : Type := {
  key : str;
  display : str;
  path : str;
  category : str
}.

(** A final result of the recogniser after [JSON.parse]: the overall
    text and the ranked alternatives, either of which may be missing. *)
Record Alternative : Type := {
  alt_text : str;
  conf : option float
}.

Record FinalResult : Type := {
  text : option str;
  alternatives : option (list Alternative)
}.

(** The grammar object handed to [Vosk.Recognizer]. *)
Record Grammar : Type := {
  start : str;
  root : str
}.

Record Recognizer : Type := {
  grammar : Grammar
}.

Record MediaStream : Type := {
  stream_id : nat;
  tracks : list nat
}.

(** What the script writes into the page.  Template strings are kept as
    constructors carrying their interpolated values. *)
Inductive PromptText : Type :=
| PromptMarkup
    (* whatever the page's markup shows before the script runs *)
| PromptFormatError
    (* "Error: Targets file is empty or formatted incorrectly." *)
| PromptLoaded (n : nat)
    (* `Loaded ${targets.length} targets. Click Start.` *)
| PromptTargetError (message : str)
    (* `Target Error: ${error.message}. Check console.` *)
| PromptDisplay (d : str).
    (* target.display *)

Inductive FeedbackText : Type :=
| FbMarkup
| FbEmpty
    (* '' *)
| FbInitializing
    (* "Initializing recognizer... Please wait." *)
| FbListening
    (* '... LISTENING ...' *)
| FbFailed
    (* "Failed to recognize speech." *)
| FbCorrect (confidence : float)
    (* `CORRECT! (Confidence: ${Math.round(confidence * 100)}%)` *)
| FbTryAgain (heard : str) (confidence : float)
    (* `TRY AGAIN. (Heard: "${recognizedWord}", Confidence: ...%)` *)
| FbMicError (name : str).
    (* `Mic Error: ${e.name}. Ensure mic is connected ...` *)

Inductive Color : Type := ColorMarkup | Red | Green | Blue.

Inductive TranscriptText : Type :=
| TrMarkup
| TrPartial (partial : option str)
    (* JSON.parse(partial).partial *)
| TrComplete
    (* `Recognition Complete.` *)
| TrReady.
    (* 'Click "Start Recognition" when ready.' *)

(** Calls into the browser and the recogniser, in the order made. *)
Inductive Effect : Type :=
| NewAudioContext (ctx : nat)
| GetUserMedia
| CreateMediaStreamSource (ctx stream : nat)
| CreateScriptProcessor (ctx node : nat)
| ConnectSource (node : nat)
| ConnectDestination (node ctx : nat)
| RecognizerReset
| TrackStop (track : nat)
| ProcessorDisconnect (node : nat)
| ContextClose (ctx : nat)
| ConsoleLog
| ConsoleError.

Definition Effect_eqb (a b : Effect) : bool :=
  match a, b with
  | NewAudioContext x, NewAudioContext y => Nat.eqb x y
  | GetUserMedia, GetUserMedia => true
  | CreateMediaStreamSource x1 x2, CreateMediaStreamSource y1 y2 =>
      Nat.eqb x1 y1 && Nat.eqb x2 y2
  | CreateScriptProcessor x1 x2, CreateScriptProcessor y1 y2 =>
      Nat.eqb x1 y1 && Nat.eqb x2 y2
  | ConnectSource x, ConnectSource y => Nat.eqb x y
  | ConnectDestination x1 x2, ConnectDestination y1 y2 =>
      Nat.eqb x1 y1 && Nat.eqb x2 y2
  | RecognizerReset, RecognizerReset => true
  | TrackStop x, TrackStop y => Nat.eqb x y
  | ProcessorDisconnect x, ProcessorDisconnect y => Nat.eqb x y
  | ContextClose x, ContextClose y => Nat.eqb x y
  | ConsoleLog, ConsoleLog => true
  | ConsoleError, ConsoleError => true
  | _, _ => false
  end.

(** The global variables of the script. *)
Record Globals : Type := {
  recognizer : option Recognizer;
  currentTargetIndex : index;
  targets : list DrillItem;
  audioContext : option nat;
  mediaStream : option MediaStream;
  processor : option nat
}.

(** The properties of the six DOM elements that the script assigns. *)
Record Dom : Type := {
  startDisabled : bool;
  nextDisabled : bool;
  imageSrc : option str;
  promptText : PromptText;
  feedbackText : FeedbackText;
  feedbackColor : Color;
  transcriptText : TranscriptText
}.

(** The browser's side: the next fresh object identity and the calls
    received so far (most recent last). *)
Record Browser : Type := {
  fresh : nat;
  calls : list Effect
}.

Record State : Type := {
  globals : Globals;
  dom : Dom;
  browser : Browser
}.

Definition withGlobals (f : Globals -> Globals) (s : State) : State :=
  {| globals := f (globals s); dom := dom s; browser := browser s |}.

Definition withDom (f : Dom -> Dom) (s : State) : State :=
  {| globals := globals s; dom := f (dom s); browser := browser s |}.

Definition withBrowser (f : Browser -> Browser) (s : State) : State :=
  {| globals := globals s; dom := dom s; browser := f (browser s) |}.

Definition set_recognizer (v : option Recognizer) (g : Globals) : Globals :=
  {| recognizer := v; currentTargetIndex := currentTargetIndex g;
     targets := targets g; audioContext := audioContext g;
     mediaStream := mediaStream g; processor := processor g |}.

Definition set_currentTargetIndex (v : index) (g : Globals) : Globals :=
  {| recognizer := recognizer g; currentTargetIndex := v;
     targets := targets g; audioContext := audioContext g;
     mediaStream := mediaStream g; processor := processor g |}.

Definition set_targets (v : list DrillItem) (g : Globals) : Globals :=
  {| recognizer := recognizer g; currentTargetIndex := currentTargetIndex g;
     targets := v; audioContext := audioContext g;
     mediaStream := mediaStream g; processor := processor g |}.

Definition set_audioContext (v : option nat) (g : Globals) : Globals :=
  {| recognizer := recognizer g; currentTargetIndex := currentTargetIndex g;
     targets := targets g; audioContext := v;
     mediaStream := mediaStream g; processor := processor g |}.

Definition set_mediaStream (v : option MediaStream) (g : Globals) : Globals :=
  {| recognizer := recognizer g; currentTargetIndex := currentTargetIndex g;
     targets := targets g; audioContext := audioContext g;
     mediaStream := v; processor := processor g |}.

Definition set_processor (v : option nat) (g : Globals) : Globals :=
  {| recognizer := recognizer g; currentTargetIndex := currentTargetIndex g;
     targets := targets g; audioContext := audioContext g;
     mediaStream := mediaStream g; processor := v |}.

Definition set_startDisabled (v : bool) (d : Dom) : Dom :=
  {| startDisabled := v; nextDisabled := nextDisabled d;
     imageSrc := imageSrc d; promptText := promptText d;
     feedbackText := feedbackText d; feedbackColor := feedbackColor d;
     transcriptText := transcriptText d |}.

Definition set_nextDisabled (v : bool) (d : Dom) : Dom :=
  {| startDisabled := startDisabled d; nextDisabled := v;
     imageSrc := imageSrc d; promptText := promptText d;
     feedbackText := feedbackText d; feedbackColor := feedbackColor d;
     transcriptText := transcriptText d |}.

Definition set_imageSrc (v : option str) (d : Dom) : Dom :=
  {| startDisabled := startDisabled d; nextDisabled := nextDisabled d;
     imageSrc := v; promptText := promptText d;
     feedbackText := feedbackText d; feedbackColor := feedbackColor d;
     transcriptText := transcriptText d |}.

Definition set_promptText (v : PromptText) (d : Dom) : Dom :=
  {| startDisabled := startDisabled d; nextDisabled := nextDisabled d;
     imageSrc := imageSrc d; promptText := v;
     feedbackText := feedbackText d; feedbackColor := feedbackColor d;
     transcriptText := transcriptText d |}.

Definition set_feedbackText (v : FeedbackText) (d : Dom) : Dom :=
  {| startDisabled := startDisabled d; nextDisabled := nextDisabled d;
     imageSrc := imageSrc d; promptText := promptText d;
     feedbackText := v; feedbackColor := feedbackColor d;
     transcriptText := transcriptText d |}.

Definition set_feedbackColor (v : Color) (d : Dom) : Dom :=
  {| startDisabled := startDisabled d; nextDisabled := nextDisabled d;
     imageSrc := imageSrc d; promptText := promptText d;
     feedbackText := feedbackText d; feedbackColor := v;
     transcriptText := transcriptText d |}.

Definition set_transcriptText (v : TranscriptText) (d : Dom) : Dom :=
  {| startDisabled := startDisabled d; nextDisabled := nextDisabled d;
     imageSrc := imageSrc d; promptText := promptText d;
     feedbackText := feedbackText d; feedbackColor := feedbackColor d;
     transcriptText := v |}.

(* ================================================================== *)
(** * Handlers: state passing with exceptions *)
(* ================================================================== *)

Inductive Exn : Type :=
| TypeError       (* a property read on [undefined] *)
| BrowserError    (* an exception raised inside a browser call *)
| SyntaxError.    (* [JSON.parse] on a text that is not JSON *)

(** A statement either completes normally or throws; either way the
    assignments made so far stay. *)
Inductive Completion (A : Type) : Type :=
| Normal (a : A)
| Throw (e : Exn).

Arguments Normal {A} a.
Arguments Throw {A} e.

Definition M (A : Type) : Type := State -> Completion A * State.

Definition ret {A : Type} (a : A) : M A := fun s => (Normal a, s).

Definition throw {A : Type} (e : Exn) : M A := fun s => (Throw e, s).

Definition bind {A B : Type} (m : M A) (k : A -> M B) : M B :=
  fun s =>
    match m s with
    | (Normal a, s') => k a s'
    | (Throw e, s') => (Throw e, s')
    end.

Definition modify (f : State -> State) : M unit := fun s => (Normal tt, f s).

Definition gets {A : Type} (f : State -> A) : M A := fun s => (Normal (f s), s).

Declare Scope js_scope.
Delimit Scope js_scope with js.
Notation "x <- m ;; k" := (bind m (fun x => k))
  (at level 61, m at next level, right associativity) : js_scope.
Notation "m ;; k" := (bind m (fun _ => k))
  (at level 61, right associativity) : js_scope.
Open Scope js_scope.

Definition assignGlobal (f : Globals -> Globals) : M unit :=
  modify (withGlobals f).

Definition assignDom (f : Dom -> Dom) : M unit := modify (withDom f).

(** The browser records a call. *)
Definition call (e : Effect) : M unit :=
  modify (withBrowser (fun b =>
    {| fresh := fresh b; calls := calls b ++ [e] |})).

(** The browser creates an object and returns its identity. *)
Definition newObject : M nat :=
  fun s => (Normal (fresh (browser s)),
            withBrowser (fun b =>
              {| fresh := S (fresh b); calls := calls b |}) s).

Definition finalState {A : Type} (r : Completion A * State) : State := snd r.

Definition completion {A : Type} (r : Completion A * State) : Completion A :=
  fst r.

(** ** 1. loadTargets *)

(** [lines.map(...).filter(item => item !== null)] *)
Fixpoint filterNotNull {A : Type} (l : list (option A)) : list A :=
  match l with
  | [] => []
  | Some a :: r => a :: filterNotNull r
  | None :: r => filterNotNull r
  end.

Definition parseLine (line : str) : option DrillItem :=
  match map trim (split comma line) with
  | [p0; p1; p2; p3] =>
      Some {| key := p0; display := p1; path := p2; category := p3 |}
  | _ => None
  end.

Definition parseTargets (body : str) : list DrillItem :=
  let lines := split newline (trim body) in
  filterNotNull (map parseLine lines).

(** How [fetch(TARGET_FILE_NAME)] settles. *)
Inductive FetchOutcome : Type :=
| FetchRejected (message : str)
| FetchResponse (ok : bool) (body : str).

(** `Could not find ${TARGET_FILE_NAME}. Did you name it correctly?` *)
Definition couldNotFind : str :=
  lit "Could not find target.txt. Did you name it correctly?".

Definition loadTargets_catch (message : str) : M unit :=
  call ConsoleError ;;
  assignDom (set_promptText (PromptTargetError message)).

Definition loadTargets (r : FetchOutcome) : M unit :=
  match r with
  | FetchRejected message => loadTargets_catch message
  | FetchResponse false _ => loadTargets_catch couldNotFind
  | FetchResponse true body =>
      assignGlobal (set_targets (parseTargets body)) ;;
      ts <- gets (fun s => targets (globals s)) ;;
      if Nat.eqb (length ts) 0 then
        assignDom (set_promptText PromptFormatError)
      else
        assignDom (set_promptText (PromptLoaded (length ts))) ;;
        assignDom (set_nextDisabled false)
  end.

(** ** 2. setupRecognizer *)

Definition grammarPhrase (t : DrillItem) : str :=
  join [space] (split underscore (toLowerCase (key t))).

Definition grammarList (ts : list DrillItem) : list str :=
  map grammarPhrase ts.

Definition buildGrammar (ts : list DrillItem) : Grammar :=
  {| start := lit "root";
     root := join (lit " | ") (grammarList ts) |}.

Definition setupRecognizer : M unit :=
  ts <- gets (fun s => targets (globals s)) ;;
  if Nat.eqb (length ts) 0 then ret tt
  else assignGlobal (set_recognizer
                       (Some {| grammar := buildGrammar ts |})).

(** ** 3. checkResult *)

(** [targets[currentTargetIndex].key.toLowerCase().trim().split('_').join(' ')] *)
Definition targetKeyOf (k : str) : str :=
  join [space] (split underscore (trim (toLowerCase k))).

(** [x.text.toLowerCase().trim()] *)
Definition recognizedOf (t : str) : str := trim (toLowerCase t).

(** [result.alternatives ? result.alternatives[0] : null] *)
Definition bestAlternativeOf (result : FinalResult) : option Alternative :=
  match alternatives result with
  | Some alts => nth_error alts 0
  | None => None
  end.

(** [(recognizedWord === targetKey) && (confidence >= CONFIDENCE_THRESHOLD)] *)
Definition isCorrectOf (recognizedWord targetKey : str) (confidence : float)
  : bool :=
  str_eqb recognizedWord targetKey && geb confidence CONFIDENCE_THRESHOLD.

Definition checkResult (result : FinalResult) : M unit :=
  match text result with
  | None => throw TypeError
  | Some t =>
      let recognizedText := recognizedOf t in
      s <- gets (fun s => s) ;;
      match at_index (targets (globals s)) (currentTargetIndex (globals s)) with
      | None => throw TypeError
      | Some target =>
          let targetKey := targetKeyOf (key target) in
          match bestAlternativeOf result with
          | None =>
              assignDom (set_feedbackText FbFailed) ;;
              assignDom (set_feedbackColor Red)
          | Some bestAlternative =>
              let recognizedWord := recognizedOf (alt_text bestAlternative) in
              let confidence := orZero (conf bestAlternative) in
              call ConsoleLog ;;
              let isCorrect :=
                isCorrectOf recognizedWord targetKey confidence in
              (if isCorrect then
                 assignDom (set_feedbackText (FbCorrect confidence)) ;;
                 assignDom (set_feedbackColor Green)
               else
                 assignDom (set_feedbackText
                              (FbTryAgain recognizedWord confidence)) ;;
                 assignDom (set_feedbackColor Red)) ;;
              assignDom (set_transcriptText TrComplete)
          end
      end
  end.

(** ** 4. updateTarget *)

Definition updateTarget : M unit :=
  s <- gets (fun s => s) ;;
  if Nat.eqb (length (targets (globals s))) 0 then ret tt
  else
    match at_index (targets (globals s)) (currentTargetIndex (globals s)) with
    | None => throw TypeError
    | Some target =>
        assignDom (set_imageSrc (Some (path target))) ;;
        assignDom (set_promptText (PromptDisplay (display target))) ;;
        assignDom (set_feedbackText FbEmpty) ;;
        assignDom (set_transcriptText TrReady) ;;
        assignDom (set_startDisabled false)
    end.

(** ** Microphone and processing handlers *)

(** How [navigator.mediaDevices.getUserMedia] settles: a stream with its
    tracks, or an error with its name. *)
Inductive MicOutcome : Type :=
| MicGranted (trackIds : list nat)
| MicDenied (name : str).

Definition startRecognition_catch (name : str) : M unit :=
  assignDom (set_startDisabled false) ;;
  assignDom (set_feedbackText (FbMicError name)) ;;
  assignDom (set_feedbackColor Red) ;;
  call ConsoleError.

Definition startRecognition (mic : MicOutcome) : M unit :=
  r <- gets (fun s => recognizer (globals s)) ;;
  match r with
  | None =>
      assignDom (set_feedbackText FbInitializing) ;;
      setupRecognizer
  | Some _ =>
      assignDom (set_startDisabled true) ;;
      assignDom (set_feedbackText FbListening) ;;
      assignDom (set_feedbackColor Blue) ;;
      ctx <- newObject ;;
      call (NewAudioContext ctx) ;;
      assignGlobal (set_audioContext (Some ctx)) ;;
      call GetUserMedia ;;
      match mic with
      | MicDenied name => startRecognition_catch name
      | MicGranted trackIds =>
          sid <- newObject ;;
          assignGlobal (set_mediaStream
                          (Some {| stream_id := sid; tracks := trackIds |})) ;;
          call (CreateMediaStreamSource ctx sid) ;;
          node <- newObject ;;
          call (CreateScriptProcessor ctx node) ;;
          assignGlobal (set_processor (Some node)) ;;
          call (ConnectSource node) ;;
          call (ConnectDestination node ctx) ;;
          call RecognizerReset
      end
  end.

(** Which of the browser calls made by the teardown raise. *)
Record Faults : Type := {
  trackStopThrows : nat -> bool;
  disconnectThrows : bool;
  closeThrows : bool
}.

Definition noFaults : Faults :=
  {| trackStopThrows := fun _ => false;
     disconnectThrows := false;
     closeThrows := false |}.

(** A browser call that may raise: it is recorded, then raises or not. *)
Definition fallible (e : Effect) (throws : bool) : M unit :=
  call e ;; if throws then throw BrowserError else ret tt.

(** [mediaStream.getTracks().forEach(track => track.stop())] *)
Fixpoint stopTracks (f : Faults) (ts : list nat) : M unit :=
  match ts with
  | [] => ret tt
  | t :: r => fallible (TrackStop t) (trackStopThrows f t) ;; stopTracks f r
  end.

Definition stopRecognition (f : Faults) : M unit :=
  assignDom (set_startDisabled false) ;;
  g <- gets globals ;;
  match mediaStream g with
  | Some ms => stopTracks f (tracks ms)
  | None => ret tt
  end ;;
  match processor g with
  | Some node => fallible (ProcessorDisconnect node) (disconnectThrows f)
  | None => ret tt
  end ;;
  match audioContext g with
  | Some ctx => fallible (ContextClose ctx) (closeThrows f)
  | None => ret tt
  end.

Definition nextTarget : M unit :=
  g <- gets globals ;;
  assignGlobal (set_currentTargetIndex
                  (succRem (currentTargetIndex g) (length (targets g)))) ;;
  updateTarget.

(** ** The recogniser's callbacks *)

(** [if (finalResult.text)]: a missing or empty text is falsy. *)
Definition textTruthy (result : FinalResult) : bool :=
  match text result with
  | Some (_ :: _) => true
  | _ => false
  end.

Definition onfinalresult (result : FinalResult) (f : Faults) : M unit :=
  (if textTruthy result then checkResult result else ret tt) ;;
  stopRecognition f.

Definition onpartialresult (partial : option str) : M unit :=
  assignDom (set_transcriptText (TrPartial partial)).

(* ================================================================== *)
(** * The page as an event-driven system *)
(* ================================================================== *)

(** The events the script listens to, each with what the environment
    decides when it is handled. *)
Inductive Event : Type :=
| WindowLoad (r : FetchOutcome)
| StartClick (mic : MicOutcome)
| NextClick
| FinalResultEvent (result : FinalResult) (f : Faults)
| PartialResultEvent (partial : option str).

(** [loadTargets().then(() => updateTarget())]: [loadTargets] catches
    its own errors, so the continuation always runs. *)
Definition onload (r : FetchOutcome) : M unit :=
  loadTargets r ;; updateTarget.

Definition handler (e : Event) : M unit :=
  match e with
  | WindowLoad r => onload r
  | StartClick mic => startRecognition mic
  | NextClick => nextTarget
  | FinalResultEvent result f => onfinalresult result f
  | PartialResultEvent partial => onpartialresult partial
  end.

(** The page: the script's state and whether the window's [load] event,
    which fires once, has fired. *)
Record Page : Type := {
  app : State;
  loadFired : bool
}.

(** The browser dispatches no click on a disabled button, fires [load]
    once, and the recogniser's callbacks exist once it has been built. *)
Definition deliverable (p : Page) (e : Event) : bool :=
  match e with
  | WindowLoad _ => negb (loadFired p)
  | StartClick _ => negb (startDisabled (dom (app p)))
  | NextClick => negb (nextDisabled (dom (app p)))
  | FinalResultEvent _ _ | PartialResultEvent _ =>
      match recognizer (globals (app p)) with
      | Some _ => true
      | None => false
      end
  end.

(** An exception escaping a handler is reported on the console; the
    page keeps the state reached. *)
Definition dispatch (p : Page) (e : Event) : Page :=
  if deliverable p e then
    {| app := finalState (handler e (app p));
       loadFired := match e with
                    | WindowLoad _ => true
                    | _ => loadFired p
                    end |}
  else p.

Definition run (p : Page) (es : list Event) : Page := fold_left dispatch es p.

(** The state when the script has been evaluated: the initial values of
    the globals, and the page's markup, of which only the two buttons'
    [disabled] attributes matter. *)
Definition initialState (startDisabled0 nextDisabled0 : bool) : State :=
  {| globals := {| recognizer := None;
                   currentTargetIndex := Int 0;
                   targets := [];
                   audioContext := None;
                   mediaStream := None;
                   processor := None |};
     dom := {| startDisabled := startDisabled0;
               nextDisabled := nextDisabled0;
               imageSrc := None;
               promptText := PromptMarkup;
               feedbackText := FbMarkup;
               feedbackColor := ColorMarkup;
               transcriptText := TrMarkup |};
     browser := {| fresh := 0; calls := [] |} |}.

Definition initialPage (startDisabled0 nextDisabled0 : bool) : Page :=
  {| app := initialState startDisabled0 nextDisabled0; loadFired := false |}.

Inductive reachable (p0 : Page) : Page -> Prop :=
| reach_init : reachable p0 p0
| reach_step p e : reachable p0 p -> reachable p0 (dispatch p e).

(** ** Vocabulary of the properties *)

(** The three outcomes of an evaluation, as shown in the feedback
    area. *)
Inductive Verdict : Type := Correct | Incorrect | NoSpeechDetected.

Definition verdictShown (s : State) : option Verdict :=
  match feedbackText (dom s) with
  | FbCorrect _ => Some Correct
  | FbTryAgain _ _ => Some Incorrect
  | FbFailed => Some NoSpeechDetected
  | _ => None
  end.

(** Canonical forms as the specification words them: for the expected
    key, underscores replaced by spaces, lower-cased, trimmed; for the
    recognised text, lower-cased, trimmed. *)
Definition canonicalKey_spec (k : str) : str :=
  trim (toLowerCase (replaceUnderscores k)).

Definition canonicalText_spec (t : str) : str := trim (toLowerCase t).

(** A confidence that is present and at least the threshold. *)
Definition confidenceAtLeast (c : option float) (threshold : float) : bool :=
  match c with
  | Some f => geb f threshold
  | None => false
  end.

(** The key neither begins nor ends with an underscore. *)
Definition boundaryFree (k : str) : Prop :=
  hd_error k <> Some underscore /\ hd_error (rev k) <> Some underscore.

(** A string with no blank at either end. *)
Definition tight (s : str) : Prop :=
  (forall c, hd_error s = Some c -> isWhiteSpace c = false)
  /\ (forall c, hd_error (rev s) = Some c -> isWhiteSpace c = false).

(** The items a line contributes, as the specification words it: one
    item when the line splits on commas into exactly four fields, made
    of the four trimmed fields in order, and nothing otherwise. *)
Definition itemsOfLine (line : str) : list DrillItem :=
  match split comma line with
  | [f0; f1; f2; f3] =>
      [ {| key := trim f0; display := trim f1;
           path := trim f2; category := trim f3 |} ]
  | _ => []
  end.

(** Appending a code unit to the last field. *)
Fixpoint snocLast (c : ascii) (fields : list str) : list str :=
  match fields with
  | [] => [[c]]
  | [f] => [f ++ [c]]
  | f :: fs => f :: snocLast c fs
  end.

(** The items of the lines of a text. *)
Definition itemsOfText (body : str) : list DrillItem :=
  filterNotNull (map parseLine (split newline body)).

(** The browser calls of a complete teardown, given what the globals
    hold: each part is there exactly when its own resource is. *)
Definition teardownCalls (g : Globals) : list Effect :=
  match mediaStream g with
  | Some ms => map TrackStop (tracks ms)
  | None => []
  end
  ++ match processor g with
     | Some node => [ProcessorDisconnect node]
     | None => []
     end
  ++ match audioContext g with
     | Some ctx => [ContextClose ctx]
     | None => []
     end.

(** None of the calls that the teardown would make raises. *)
Definition faultFree (f : Faults) (g : Globals) : Prop :=
  (forall ms t, mediaStream g = Some ms -> In t (tracks ms) ->
                trackStopThrows f t = false)
  /\ (processor g <> None -> disconnectThrows f = false)
  /\ (audioContext g <> None -> closeThrows f = false).

(** The state after the browser has received the calls [es]. *)
Definition logged (es : list Effect) (s : State) : State :=
  withBrowser (fun b => {| fresh := fresh b; calls := calls b ++ es |}) s.

(** A statement that only makes browser calls, in the order of [full],
    stopping early only when it throws. *)
Definition logsPrefix (m : M unit) (full : list Effect) (s : State) : Prop :=
  exists done rest,
    full = done ++ rest
    /\ finalState (m s) = logged done s
    /\ (completion (m s) = Normal tt -> rest = []).

(** What the advance and the load depend on and maintain. *)
Definition sessionCore (s : State) : list DrillItem * index * bool :=
  (targets (globals s), currentTargetIndex (globals s), nextDisabled (dom s)).

(** The current index points into the target sequence. *)
Definition validIndex (s : State) : Prop :=
  exists z : Z,
    currentTargetIndex (globals s) = Int z
    /\ (0 <= z < Z.of_nat (length (targets (globals s))))%Z.

(** What holds of every page the browser can reach when the Next button
    starts disabled: before a successful load the index rests at 0 and
    Next stays disabled; afterwards the index points into the targets. *)
Definition sessionInvariant (p : Page) : Prop :=
  (targets (globals (app p)) = [] ->
     currentTargetIndex (globals (app p)) = Int 0
     /\ nextDisabled (dom (app p)) = true)
  /\ (targets (globals (app p)) <> [] ->
      validIndex (app p) /\ loadFired p = true).

Definition indexInvariant (s : State) : Prop :=
  targets (globals s) <> [] -> validIndex s.

(** [n] successive advances. *)
Fixpoint advance (n : nat) : M unit :=
  match n with
  | O => ret tt
  | S k => nextTarget ;; advance k
  end.

(** The spoken phrase as the specification words it. *)
Definition phrase_spec (k : str) : str :=
  toLowerCase (replaceUnderscores k).

(** Whether the browser has received the call [e]. *)
Definition called (s : State) (e : Effect) : bool :=
  existsb (Effect_eqb e) (calls (browser s)).

(** A capture pipeline is held and none of its parts has been released. *)
Definition capturing (s : State) : Prop :=
  exists ctx ms node,
    audioContext (globals s) = Some ctx
    /\ mediaStream (globals s) = Some ms
    /\ processor (globals s) = Some node
    /\ called s (ContextClose ctx) = false
    /\ called s (ProcessorDisconnect node) = false
    /\ (forall t, In t (tracks ms) -> called s (TrackStop t) = false).


(** ** Sample inputs *)

(** A session on a single drill item with key [k], just loaded. *)
Definition drillItem (k : string) : DrillItem :=
  {| key := lit k; display := lit "Touch your nose";
     path := lit "img/nose.png"; category := lit "body" |}.

Definition drillState (k : string) : State :=
  withGlobals (set_targets [drillItem k]) (initialState false false).

(** A final result whose only alternative repeats its text. *)
Definition outcome (t : string) (c : option float) : FinalResult :=
  {| text := Some (lit t);
     alternatives := Some [ {| alt_text := lit t; conf := c |} ] |}.

(** A page with one target, the recogniser built by a first click on
    Start, then a capture started, then Next clicked during the
    capture, then Start clicked again. *)
Definition sampleBody : str :=
  lit "touch_nose,Touch your nose,img/nose.png,body".

Definition readyPage : Page :=
  run (initialPage true true)
      [WindowLoad (FetchResponse true sampleBody); StartClick (MicGranted [])].

Definition listeningPage : Page :=
  dispatch readyPage (StartClick (MicGranted [10])).

Definition advancedPage : Page := dispatch listeningPage NextClick.

Definition restartedPage : Page :=
  dispatch advancedPage (StartClick (MicGranted [20])).

(** A teardown in which stopping a track raises. *)
Definition trackFault : Faults :=
  {| trackStopThrows := fun _ => true;
     disconnectThrows := false;
     closeThrows := false |}.

(** A final result without text, though with an alternative. *)
Definition silentResult : FinalResult :=
  {| text := Some [];
     alternatives := Some [ {| alt_text := []; conf := Some 1%float |} ] |}.

(** A targets file of three lines, and one with malformed lines only. *)
Definition threeLines : str :=
  lit "cat,Cat,img/cat.png,animal" ++ [newline]
  ++ lit "touch_nose,Touch your nose,img/nose.png,body" ++ [newline]
  ++ lit "dog,Dog,img/dog.png,animal".

Definition threeTargets : State :=
  app (run (initialPage true true) [WindowLoad (FetchResponse true threeLines)]).

Definition malformedLines : str :=
  lit "cat,Cat,img/cat.png" ++ [newline] ++ lit "just a line".

(** ** Further vocabulary *)

Definition carriageReturn : ascii := ascii_of_nat 13.

(** A field as the parser stores it: no blank at either end, and neither
    a comma nor a line feed inside. *)
Definition cleanField (f : str) : Prop :=
  tight f /\ ~ In comma f /\ ~ In newline f.

Definition cleanItem (t : DrillItem) : Prop :=
  cleanField (key t) /\ cleanField (display t)
  /\ cleanField (path t) /\ cleanField (category t).

(** What the script shows for the target [t]: [updateTarget]'s five
    assignments. *)
Definition showing (t : DrillItem) (d : Dom) : Prop :=
  imageSrc d = Some (path t)
  /\ promptText d = PromptDisplay (display t)
  /\ feedbackText d = FbEmpty
  /\ transcriptText d = TrReady
  /\ startDisabled d = false.

(** As long as no target is loaded, no recogniser exists and the
    microphone has not been asked for. *)
Definition idleWithoutTargets (p : Page) : Prop :=
  targets (globals (app p)) = [] ->
  recognizer (globals (app p)) = None
  /\ called (app p) GetUserMedia = false.

(** The calls of a start whose microphone request is granted, the
    browser's next three object identities being [n], [n+1], [n+2]. *)
Definition captureCalls (n : nat) : list Effect :=
  [NewAudioContext n; GetUserMedia; CreateMediaStreamSource n (S n);
   CreateScriptProcessor n (S (S n)); ConnectSource (S (S n));
   ConnectDestination (S (S n)) n; RecognizerReset].

(* ================================================================== *)
(** * The recogniser worker, [vosk-worker.js] *)
(* ================================================================== *)

Module Worker.

(** The values that travel in a message, as far as the worker looks at
    them: it compares [command] with string literals and tests the
    others for truthiness. *)
Inductive JsValue : Type :=
| Undefined
| StringValue (s : str)
| NumberValue (z : Z)
| ObjectValue (id : nat).

Definition truthyValue (v : JsValue) : bool :=
  match v with
  | Undefined => false
  | StringValue [] => false
  | StringValue (_ :: _) => true
  | NumberValue z => negb (z =? 0)%Z
  | ObjectValue _ => true
  end.

(** [event.data], destructured. *)
Record Message : Type := {
  command : JsValue;
  callbackId : JsValue;
  modelName : JsValue;
  sampleRate : JsValue;
  data : JsValue;
  words : JsValue;
  grammarValue : JsValue;
  recognitionParams : JsValue
}.

(** What [Vosk.Model(modelName)] settles to.  A model object either
    builds a recogniser or raises when asked to. *)
Inductive Construct : Type :=
| Constructs (recognizerId : nat)
| ConstructThrows (e : str).

Inductive ModelValue : Type :=
| ModelFalsy
| ModelObject (id : nat) (construct : Construct).

Inductive Settled : Type :=
| Rejected (e : str)
| Resolved (m : ModelValue).

(** What the [catch] callback receives: the rejection's reason or an
    exception raised by the [then] callback. *)
Inductive Thrown : Type :=
| ThrownValue (e : str)
| ThrownTypeError.
    (* [new model.Recognizer] on a model without that constructor *)

(** The messages the worker posts. *)
Inductive Reply : Type :=
| ReplyInitFailed (cb : JsValue)
    (* { callbackId, error: 'Model initialization failed' } *)
| ReplyInitError (cb : JsValue) (e : Thrown)
    (* { callbackId, error: `Initialization error: ${e}` } *)
| ReplyResult (cb : JsValue) (result : JsValue).
    (* { callbackId, result: results } *)

Definition replyId (r : Reply) : JsValue :=
  match r with
  | ReplyInitFailed cb => cb
  | ReplyInitError cb _ => cb
  | ReplyResult cb _ => cb
  end.

(** The calls the worker makes into the library and its own scope. *)
Inductive LibCall : Type :=
| SetLogLevel
| LoadModel (name : JsValue)
| NewRecognizer (modelId : nat) (rate : JsValue)
| AcceptWaveform (recognizerId : nat) (d : JsValue)
| SetWords (recognizerId : nat) (w : JsValue)
| SetGrammar (recognizerId : nat) (g : JsValue)
| ResetRecognizer (recognizerId : nat)
| TerminateRecognizer (recognizerId : nat)
| CloseWorker.

(** The two globals, what has been posted and called (most recent
    last), and whether [self.close()] has run. *)
Record WorkerState : Type := {
  model : option ModelValue;
  recognizerHeld : option nat;
  posted : list Reply;
  libCalls : list LibCall;
  closed : bool
}.

Definition initialWorker : WorkerState :=
  {| model := None; recognizerHeld := None;
     posted := []; libCalls := []; closed := false |}.

Definition postMessage (r : Reply) (w : WorkerState) : WorkerState :=
  {| model := model w; recognizerHeld := recognizerHeld w;
     posted := posted w ++ [r]; libCalls := libCalls w;
     closed := closed w |}.

Definition libCall (c : LibCall) (w : WorkerState) : WorkerState :=
  {| model := model w; recognizerHeld := recognizerHeld w;
     posted := posted w; libCalls := libCalls w ++ [c];
     closed := closed w |}.

Definition setModel (m : ModelValue) (w : WorkerState) : WorkerState :=
  {| model := Some m; recognizerHeld := recognizerHeld w;
     posted := posted w; libCalls := libCalls w; closed := closed w |}.

Definition setRecognizer (r : nat) (w : WorkerState) : WorkerState :=
  {| model := model w; recognizerHeld := Some r;
     posted := posted w; libCalls := libCalls w; closed := closed w |}.

Definition setClosed (w : WorkerState) : WorkerState :=
  {| model := model w; recognizerHeld := recognizerHeld w;
     posted := posted w; libCalls := libCalls w; closed := true |}.

Definition isCommand (v : JsValue) (name : string) : bool :=
  match v with
  | StringValue s => str_eqb s (lit name)
  | _ => false
  end.

(** The message handler.  [accepted] is what
    [recognizer.acceptWaveform(data)] returns should it be called. *)
Definition onmessage (msg : Message) (accepted : JsValue) (w : WorkerState)
  : WorkerState :=
  if isCommand (command msg) "initialize" then
    libCall (LoadModel (modelName msg)) (libCall SetLogLevel w)
  else if isCommand (command msg) "process" then
    match recognizerHeld w with
    | Some r =>
        let w' := libCall (AcceptWaveform r (data msg)) w in
        if truthyValue accepted
        then postMessage (ReplyResult (callbackId msg) accepted) w'
        else w'
    | None => w
    end
  else if isCommand (command msg) "setWords" then
    match recognizerHeld w with
    | Some r => if truthyValue (words msg)
                then libCall (SetWords r (words msg)) w else w
    | None => w
    end
  else if isCommand (command msg) "setGrammar" then
    match recognizerHeld w with
    | Some r => if truthyValue (grammarValue msg)
                then libCall (SetGrammar r (grammarValue msg)) w else w
    | None => w
    end
  else if isCommand (command msg) "setRecognitionParams" then w
  else if isCommand (command msg) "reset" then
    match recognizerHeld w with
    | Some r => libCall (ResetRecognizer r) w
    | None => w
    end
  else if isCommand (command msg) "terminate" then
    setClosed
      (libCall CloseWorker
         match recognizerHeld w with
         | Some r => libCall (TerminateRecognizer r) w
         | None => w
         end)
  else w.

(** The promise of an [initialize] message settles.  The [then]
    callback assigns the model, builds the recogniser and tests the
    model; what it raises goes to the [catch] callback. *)
Definition modelTruthy (m : option ModelValue) : bool :=
  match m with
  | Some (ModelObject _ _) => true
  | _ => false
  end.

Definition thenCallback (msg : Message) (m : ModelValue) (w : WorkerState)
  : option Thrown * WorkerState :=
  let w1 := setModel m w in
  match m with
  | ModelFalsy => (Some ThrownTypeError, w1)
  | ModelObject id c =>
      let w2 := libCall (NewRecognizer id (sampleRate msg)) w1 in
      match c with
      | ConstructThrows e => (Some (ThrownValue e), w2)
      | Constructs r =>
          let w3 := setRecognizer r w2 in
          (None,
           if negb (modelTruthy (model w3))
           then postMessage (ReplyInitFailed (callbackId msg)) w3
           else w3)
      end
  end.

Definition catchCallback (msg : Message) (e : Thrown) (w : WorkerState)
  : WorkerState :=
  postMessage (ReplyInitError (callbackId msg) e) w.

Definition onsettled (msg : Message) (outcome : Settled) (w : WorkerState)
  : WorkerState :=
  match outcome with
  | Rejected e => catchCallback msg (ThrownValue e) w
  | Resolved m =>
      match thenCallback msg m w with
      | (Some e, w') => catchCallback msg e w'
      | (None, w') => w'
      end
  end.

Inductive WorkerEvent : Type :=
| MessageEvent (msg : Message) (accepted : JsValue)
| SettledEvent (msg : Message) (outcome : Settled).

(** After [self.close()] the worker handles nothing more. *)
Definition workerStep (w : WorkerState) (e : WorkerEvent) : WorkerState :=
  if closed w then w
  else match e with
       | MessageEvent msg accepted => onmessage msg accepted w
       | SettledEvent msg outcome => onsettled msg outcome w
       end.

Definition workerRun (w : WorkerState) (es : list WorkerEvent) : WorkerState :=
  fold_left workerStep es w.

(** The callback identities of the events handled so far. *)
Definition eventId (e : WorkerEvent) : JsValue :=
  match e with
  | MessageEvent msg _ => callbackId msg
  | SettledEvent msg _ => callbackId msg
  end.

Definition isInitFailed (r : Reply) : bool :=
  match r with
  | ReplyInitFailed _ => true
  | _ => false
  end.

(** The callback identities of the messages received. *)
Definition receivedIds (es : list WorkerEvent) : list JsValue :=
  flat_map (fun e => match e with
                     | MessageEvent msg _ => [callbackId msg]
                     | SettledEvent _ _ => []
                     end) es.

(** A promise settles only after the "initialize" message that created
    it: every settle event of [es] refers to a message of [pending] or
    to an earlier "initialize" message of [es]. *)
Fixpoint settlesFollowRequests (pending : list Message)
         (es : list WorkerEvent) : Prop :=
  match es with
  | [] => True
  | MessageEvent msg _ :: rest =>
      settlesFollowRequests
        (if isCommand (command msg) "initialize" then msg :: pending
         else pending) rest
  | SettledEvent msg _ :: rest =>
      In msg pending /\ settlesFollowRequests pending rest
  end.

(** A sample message. *)
Definition sampleMessage (name : string) (cb : Z) : Message :=
  {| command := StringValue (lit name);
     callbackId := NumberValue cb;
     modelName := StringValue (lit "model.tar.gz");
     sampleRate := NumberValue 16000;
     data := ObjectValue 1;
     words := Undefined;
     grammarValue := Undefined;
     recognitionParams := Undefined |}.

End Worker.

(* ================================================================== *)
(** * The recogniser's payload as JSON *)
(* ================================================================== *)

(** [recognizer.onfinalresult] receives a text and reads the value that
    [JSON.parse] makes of it.  Here the handler and [checkResult] are
    written over arbitrary JSON values, with every property read and
    method call of the source and the TypeErrors they can raise; on the
    values that have the shape of a [FinalResult] they are the typed
    handlers above. *)

Module Json.

Set Warnings "-register-all".

Inductive value : Type :=
| JNull
| JBool (b : bool)
| JNum (f : float)
| JStr (s : str)
| JArr (items : list value)
| JObj (fields : list (str * value)).

(** A value read in the script is a JSON value or [undefined]. *)
Definition truthyJson (v : option value) : bool :=
  match v with
  | None => false
  | Some JNull => false
  | Some (JBool b) => b
  | Some (JNum f) => truthy f
  | Some (JStr []) => false
  | Some (JStr (_ :: _)) => true
  | Some (JArr _) => true
  | Some (JObj _) => true
  end.

(** The own property [name] of an object made by [JSON.parse]: of
    duplicate keys the last one wins. *)
Fixpoint lookup (name : str) (fields : list (str * value)) : option value :=
  match fields with
  | [] => None
  | (k, v) :: rest =>
      match lookup name rest with
      | Some w => Some w
      | None => if str_eqb k name then Some v else None
      end
  end.

(** [v.name] for the names the script reads ([text], [alternatives],
    [conf]): a TypeError on [undefined] and [null], the own property on
    an object, [undefined] on anything else. *)
Definition getProp (v : option value) (name : string) : Exn + option value :=
  match v with
  | None => inl TypeError
  | Some JNull => inl TypeError
  | Some (JObj fields) => inr (lookup (lit name) fields)
  | Some _ => inr None
  end.

(** [v[0]] on a truthy value. *)
Definition index0 (v : value) : option value :=
  match v with
  | JArr items => nth_error items 0
  | JStr (c :: _) => Some (JStr [c])
  | JObj fields => lookup (lit "0") fields
  | _ => None
  end.

(** [v.toLowerCase().trim()]: only a string has the method. *)
Definition lowerTrimmed (v : option value) : Exn + str :=
  match v with
  | Some (JStr s) => inr (trim (toLowerCase s))
  | _ => inl TypeError
  end.

(** [bestAlternative.conf || 0], on which [toFixed(2)] is then called:
    only a number has the method. *)
Definition confidenceOf (conf : option value) : Exn + float :=
  if truthyJson conf then
    match conf with
    | Some (JNum f) => inr f
    | _ => inl TypeError
    end
  else inr PrimFloat.zero.

(** [result.alternatives ? result.alternatives[0] : null] *)
Definition bestOf (alts : option value) : option value :=
  if truthyJson alts then
    match alts with
    | Some a => index0 a
    | None => None
    end
  else Some JNull.

Definition liftE {A : Type} (r : Exn + A) : M A :=
  match r with
  | inl e => throw e
  | inr a => ret a
  end.

Definition checkResultJson (result : value) : M unit :=
  t <- liftE (getProp (Some result) "text") ;;
  recognizedText <- liftE (lowerTrimmed t) ;;
  s <- gets (fun s => s) ;;
  match at_index (targets (globals s)) (currentTargetIndex (globals s)) with
  | None => throw TypeError
  | Some target =>
      let targetKey := targetKeyOf (key target) in
      alts <- liftE (getProp (Some result) "alternatives") ;;
      let bestAlternative := bestOf alts in
      if negb (truthyJson bestAlternative) then
        assignDom (set_feedbackText FbFailed) ;;
        assignDom (set_feedbackColor Red)
      else
        w <- liftE (getProp bestAlternative "text") ;;
        recognizedWord <- liftE (lowerTrimmed w) ;;
        c <- liftE (getProp bestAlternative "conf") ;;
        confidence <- liftE (confidenceOf c) ;;
        call ConsoleLog ;;
        let isCorrect :=
          isCorrectOf recognizedWord targetKey confidence in
        (if isCorrect then
           assignDom (set_feedbackText (FbCorrect confidence)) ;;
           assignDom (set_feedbackColor Green)
         else
           assignDom (set_feedbackText
                        (FbTryAgain recognizedWord confidence)) ;;
           assignDom (set_feedbackColor Red)) ;;
        assignDom (set_transcriptText TrComplete)
  end.

(** The handler on what [JSON.parse(result)] gives: a value, or a
    SyntaxError ([None]). *)
Definition onfinalresultJson (parsed : option value) (f : Faults) : M unit :=
  match parsed with
  | None => throw SyntaxError
  | Some finalResult =>
      t <- liftE (getProp (Some finalResult) "text") ;;
      (if truthyJson t then checkResultJson finalResult else ret tt) ;;
      stopRecognition f
  end.

(** The JSON value of a typed final result. *)
Definition encodeAlternative (a : Alternative) : value :=
  JObj ((lit "text", JStr (alt_text a))
        :: match conf a with
           | Some f => [(lit "conf", JNum f)]
           | None => []
           end).

Definition encodeResult (r : FinalResult) : value :=
  JObj (match text r with
        | Some t => [(lit "text", JStr t)]
        | None => []
        end
        ++ match alternatives r with
           | Some alts => [(lit "alternatives", JArr (map encodeAlternative alts))]
           | None => []
           end).

(** A first alternative that [checkResult] can evaluate: its text is a
    string and its confidence is missing, falsy or a number. *)
Definition evaluable (best : option value) : Prop :=
  (exists w, getProp best "text" = inr (Some (JStr w)))
  /\ (exists c, getProp best "conf" = inr c
                /\ (truthyJson c = false \/ exists f, c = Some (JNum f))).

(** A first alternative that is there but whose text is no string. *)
Definition textless (best : option value) : Prop :=
  truthyJson best = true
  /\ forall w, getProp best "text" <> inr (Some (JStr w)).

(** A first alternative whose text is a string but whose confidence is
    truthy and no number. *)
Definition unratable (best : option value) : Prop :=
  (exists w, getProp best "text" = inr (Some (JStr w)))
  /\ exists c, getProp best "conf" = inr c
               /\ truthyJson c = true
               /\ forall f, c <> Some (JNum f).

(** A sample payload: [{"text": "touch nose", "alternatives": [{"conf": 0.9}]}]. *)
Definition textlessPayload : value :=
  JObj [(lit "text", JStr (lit "touch nose"));
        (lit "alternatives", JArr [JObj [(lit "conf", JNum 0.9%float)]])].

End Json.

(** ** Vocabulary of the teardown's failures *)

(** Whether the browser call [e] raises under [f]. *)
Definition raisesOn (f : Faults) (e : Effect) : bool :=
  match e with
  | TrackStop t => trackStopThrows f t
  | ProcessorDisconnect _ => disconnectThrows f
  | ContextClose _ => closeThrows f
  | _ => false
  end.

(** The calls of [es] up to and including the first that raises. *)
Fixpoint upToFirstRaise (f : Faults) (es : list Effect) : list Effect :=
  match es with
  | [] => []
  | e :: rest => if raisesOn f e then [e] else e :: upToFirstRaise f rest
  end.

(** A statement that makes the calls of [full] in order and throws at
    the first that raises. *)
Definition runsUntilRaise (f : Faults) (m : M unit) (full : list Effect)
           (s : State) : Prop :=
  m s = (if existsb (raisesOn f) full then Throw BrowserError else Normal tt,
         logged (upToFirstRaise f full) s).

(** A teardown in which disconnecting the processor raises. *)
Definition disconnectFault : Faults :=
  {| trackStopThrows := fun _ => false;
     disconnectThrows := true;
     closeThrows := false |}.

(** A final result with a text and no alternatives. *)
Definition unrankedResult : FinalResult :=
  {| text := Some (lit "touch nose"); alternatives := None |}.

(** The page on which Next, enabled in the markup, was clicked before
    the targets arrived. *)
Definition earlyNextPage : Page := dispatch (initialPage true false) NextClick.

(** Unfolding one layer of the state-passing combinators. *)
Ltac step_monad :=
  unfold bind, gets, modify, assignDom, assignGlobal, call, ret, throw,
    finalState, completion; simpl.

(* ================================================================== *)
(** * Properties of the string primitives *)
(* ================================================================== *)

Section StringFacts.

Lemma str_eqb_eq (a b : str) : str_eqb a b = true <-> a = b.
Proof.
  unfold str_eqb. destruct (list_eq_dec ascii_dec a b); split; congruence.
Qed.

Lemma str_eqb_refl (a : str) : str_eqb a a = true.
Proof. now apply str_eqb_eq. Qed.

Lemma str_eqb_neq (a b : str) : str_eqb a b = false <-> a <> b.
Proof.
  unfold str_eqb. destruct (list_eq_dec ascii_dec a b); split; congruence.
Qed.

(** Facts about single code units, each settled by running through the
    256 of them. *)
Ltac by_cases_on c :=
  destruct c as [[] [] [] [] [] [] [] []]; vm_compute; try reflexivity; auto.

Lemma lowerChar_white c : isWhiteSpace (lowerChar c) = isWhiteSpace c.
Proof. by_cases_on c. Qed.

Lemma lowerChar_idem c : lowerChar (lowerChar c) = lowerChar c.
Proof. by_cases_on c. Qed.

Lemma lowerChar_underscoreToSpace c :
  lowerChar (underscoreToSpace c) = underscoreToSpace (lowerChar c).
Proof. by_cases_on c. Qed.

Lemma underscoreToSpace_idem c :
  underscoreToSpace (underscoreToSpace c) = underscoreToSpace c.
Proof. by_cases_on c. Qed.

Lemma underscoreToSpace_white c :
  isWhiteSpace (underscoreToSpace c)
  = isWhiteSpace c || Ascii.eqb c underscore.
Proof. by_cases_on c. Qed.

Lemma lowerChar_is_underscore c :
  Ascii.eqb (lowerChar c) underscore = Ascii.eqb c underscore.
Proof. by_cases_on c. Qed.

Lemma white_not_comma c : isWhiteSpace c = true -> Ascii.eqb c comma = false.
Proof. by_cases_on c; discriminate. Qed.

Lemma split_nonempty sep s : split sep s <> [].
Proof.
  destruct s as [|c r]; simpl; [discriminate|].
  destruct (Ascii.eqb c sep); [discriminate|].
  destruct (split sep r); discriminate.
Qed.

Lemma join_consHead sep c fields :
  fields <> [] -> join sep (consHead c fields) = c :: join sep fields.
Proof.
  destruct fields as [|f [|g fs]]; simpl; congruence.
Qed.

(** [s.split('_').join(' ')] replaces each underscore by a space. *)
Lemma join_split_replace s :
  join [space] (split underscore s) = replaceUnderscores s.
Proof.
  induction s as [|c r IH]; simpl; [reflexivity|].
  unfold underscoreToSpace at 1.
  destruct (Ascii.eqb c underscore).
  - destruct (split underscore r) as [|f fs] eqn:E.
    + now destruct (split_nonempty underscore r).
    + change (join [space] ([] :: f :: fs))
        with (space :: join [space] (f :: fs)).
      now rewrite IH.
  - rewrite join_consHead by apply split_nonempty. now rewrite IH.
Qed.

(** *** Trimming *)

Lemma trimStart_white ws t :
  forallb isWhiteSpace ws = true -> trimStart (ws ++ t) = trimStart t.
Proof.
  induction ws as [|c r IH]; simpl; [reflexivity|].
  intros H. apply andb_true_iff in H as [Hc Hr]. rewrite Hc. auto.
Qed.

Lemma trimEnd_snoc_white t c :
  isWhiteSpace c = true -> trimEnd (t ++ [c]) = trimEnd t.
Proof.
  intros Hc. induction t as [|d r IH]; simpl.
  - now rewrite Hc.
  - now rewrite IH.
Qed.

Lemma trimEnd_white t ws :
  forallb isWhiteSpace ws = true -> trimEnd (t ++ ws) = trimEnd t.
Proof.
  revert t. induction ws as [|c r IH]; intros t H; simpl in *.
  - now rewrite app_nil_r.
  - apply andb_true_iff in H as [Hc Hr].
    change (c :: r) with ([c] ++ r). rewrite app_assoc, IH by assumption.
    now apply trimEnd_snoc_white.
Qed.

(** What each half of [trim] drops is white space. *)
Lemma trimStart_decompose s :
  exists ws, forallb isWhiteSpace ws = true /\ s = ws ++ trimStart s.
Proof.
  induction s as [|c r [ws [Hws E]]]; simpl.
  - now exists [].
  - destruct (isWhiteSpace c) eqn:Hc.
    + exists (c :: ws). simpl. rewrite Hc, Hws. split; [reflexivity|congruence].
    + now exists [].
Qed.

Lemma trimEnd_decompose s :
  exists ws, forallb isWhiteSpace ws = true /\ s = trimEnd s ++ ws.
Proof.
  induction s as [|c r [ws [Hws E]]]; simpl.
  - now exists [].
  - destruct (trimEnd r) as [|d r'] eqn:Er.
    + destruct (isWhiteSpace c) eqn:Hc.
      * exists (c :: ws). simpl in *. rewrite Hc, Hws. split; [reflexivity|congruence].
      * exists ws. split; [assumption|]. simpl in *. congruence.
    + exists ws. split; [assumption|]. simpl in *. congruence.
Qed.

Lemma trimStart_head s c :
  hd_error (trimStart s) = Some c -> isWhiteSpace c = false.
Proof.
  induction s as [|d r IH]; simpl; [discriminate|].
  destruct (isWhiteSpace d) eqn:Hd; [assumption|].
  simpl. congruence.
Qed.

Lemma trimEnd_last s c :
  hd_error (rev (trimEnd s)) = Some c -> isWhiteSpace c = false.
Proof.
  revert c. induction s as [|d r IH]; intros c; simpl; [discriminate|].
  destruct (trimEnd r) as [|e r'] eqn:Er.
  - destruct (isWhiteSpace d) eqn:Hd; simpl; [discriminate|congruence].
  - intros H. apply IH.
    change (d :: e :: r') with ([d] ++ (e :: r')) in H.
    rewrite rev_app_distr in H. simpl in H. simpl.
    destruct (rev r' ++ [e]) eqn:E; simpl in *.
    + now destruct (rev r').
    + assumption.
Qed.

(** A string that starts with a non-blank is left alone by [trimStart],
    and likewise at the other end. *)
Lemma trimStart_fixed s :
  (forall c, hd_error s = Some c -> isWhiteSpace c = false) ->
  trimStart s = s.
Proof.
  destruct s as [|c r]; simpl; [reflexivity|].
  intros H. now rewrite (H c eq_refl).
Qed.

Lemma trimEnd_fixed s :
  (forall c, hd_error (rev s) = Some c -> isWhiteSpace c = false) ->
  trimEnd s = s.
Proof.
  induction s as [|c r IH]; simpl; [reflexivity|].
  intros H. destruct r as [|d r'].
  - simpl in *. now rewrite (H c eq_refl).
  - rewrite IH; [reflexivity|].
    intros e He. apply H.
    change (rev (d :: r')) with (rev r' ++ [d]) in *.
    destruct (rev r' ++ [d]) eqn:E; simpl in *; [discriminate|assumption].
Qed.

Lemma trimStart_last s c :
  hd_error (rev (trimStart s)) = Some c -> hd_error (rev s) = Some c.
Proof.
  intros H. destruct (trimStart_decompose s) as [ws [_ E]].
  rewrite E at 1. rewrite rev_app_distr.
  destruct (rev (trimStart s)); simpl in *; [discriminate|assumption].
Qed.

Lemma trim_tight s : tight (trim s).
Proof.
  split; intros c H.
  - exact (trimStart_head _ H).
  - apply trimStart_last in H. exact (trimEnd_last _ H).
Qed.

Lemma trim_decompose s :
  exists ws1 ws2,
    forallb isWhiteSpace ws1 = true /\ forallb isWhiteSpace ws2 = true
    /\ s = ws1 ++ trim s ++ ws2.
Proof.
  destruct (trimEnd_decompose s) as [ws2 [H2 E2]].
  destruct (trimStart_decompose (trimEnd s)) as [ws1 [H1 E1]].
  exists ws1, ws2. repeat split; try assumption.
  unfold trim. rewrite app_assoc, <- E1. exact E2.
Qed.

Lemma trim_sandwich ws1 core ws2 :
  forallb isWhiteSpace ws1 = true -> forallb isWhiteSpace ws2 = true ->
  tight core -> trim (ws1 ++ core ++ ws2) = core.
Proof.
  intros H1 H2 [Hhd Hlast]. unfold trim.
  rewrite app_assoc, trimEnd_white by assumption.
  destruct core as [|c r].
  - rewrite app_nil_r.
    rewrite <- (app_nil_l ws1), trimEnd_white by assumption. reflexivity.
  - rewrite trimEnd_fixed.
    + rewrite trimStart_white by assumption. now apply trimStart_fixed.
    + intros d Hd. apply Hlast. rewrite rev_app_distr in Hd.
      destruct (rev (c :: r)) eqn:E; simpl in *; [|assumption].
      apply (f_equal (@length _)) in E. rewrite length_app in E.
      simpl in E. lia.
Qed.

Lemma trim_idem s : trim (trim s) = trim s.
Proof.
  rewrite <- (app_nil_l (trim s)) at 1. rewrite <- (app_nil_r (trim s)) at 1.
  apply trim_sandwich; try reflexivity. apply trim_tight.
Qed.

(** [trim] commutes with a character map that keeps blanks blank and
    non-blanks non-blank. *)
Lemma trim_map (f : ascii -> ascii) s :
  (forall c, isWhiteSpace (f c) = isWhiteSpace c) ->
  trim (map f s) = map f (trim s).
Proof.
  intros Hf.
  assert (Hs : forall t, trimStart (map f t) = map f (trimStart t)).
  { induction t as [|c r IH]; simpl; [reflexivity|].
    rewrite Hf. now destruct (isWhiteSpace c). }
  assert (He : forall t, trimEnd (map f t) = map f (trimEnd t)).
  { induction t as [|c r IH]; simpl; [reflexivity|].
    rewrite IH, Hf.
    destruct (trimEnd r); simpl; [now destruct (isWhiteSpace c)|reflexivity]. }
  unfold trim. now rewrite He, Hs.
Qed.

Lemma trim_toLowerCase s : trim (toLowerCase s) = toLowerCase (trim s).
Proof. apply trim_map, lowerChar_white. Qed.

Lemma toLowerCase_idem s : toLowerCase (toLowerCase s) = toLowerCase s.
Proof.
  unfold toLowerCase. rewrite map_map. apply map_ext, lowerChar_idem.
Qed.

Lemma toLowerCase_replaceUnderscores s :
  toLowerCase (replaceUnderscores s) = replaceUnderscores (toLowerCase s).
Proof.
  unfold toLowerCase, replaceUnderscores. rewrite !map_map.
  apply map_ext, lowerChar_underscoreToSpace.
Qed.

Lemma hd_toLowerCase_underscore t :
  hd_error (toLowerCase t) = Some underscore -> hd_error t = Some underscore.
Proof.
  destruct t as [|c r]; simpl; [discriminate|].
  intros E. injection E as E. f_equal.
  apply Ascii.eqb_eq. rewrite <- lowerChar_is_underscore. now apply Ascii.eqb_eq.
Qed.

Lemma boundaryFree_toLowerCase s :
  boundaryFree s -> boundaryFree (toLowerCase s).
Proof.
  unfold boundaryFree. intros [Hh Hl]. split; intros E.
  - now apply Hh, hd_toLowerCase_underscore.
  - apply Hl, hd_toLowerCase_underscore. unfold toLowerCase in *.
    now rewrite map_rev.
Qed.

Lemma hd_replaceUnderscores_white t :
  (forall c, hd_error t = Some c -> isWhiteSpace c = false) ->
  hd_error t <> Some underscore ->
  forall c, hd_error (replaceUnderscores t) = Some c -> isWhiteSpace c = false.
Proof.
  destruct t as [|d r]; simpl; [discriminate|].
  intros Hw Hu c E. injection E as <-.
  rewrite underscoreToSpace_white, (Hw d eq_refl). simpl.
  apply Ascii.eqb_neq. congruence.
Qed.

Lemma replaceUnderscores_tight s :
  tight s -> boundaryFree s -> tight (replaceUnderscores s).
Proof.
  intros [Th Tl] [Bh Bl]. split.
  - now apply hd_replaceUnderscores_white.
  - unfold replaceUnderscores. rewrite <- map_rev.
    now apply hd_replaceUnderscores_white.
Qed.

Lemma forallb_white_replace ws :
  forallb isWhiteSpace ws = true ->
  forallb isWhiteSpace (replaceUnderscores ws) = true.
Proof.
  induction ws as [|c r IH]; simpl; [reflexivity|].
  intros H. apply andb_true_iff in H as [Hc Hr].
  rewrite underscoreToSpace_white, Hc, IH by assumption. reflexivity.
Qed.

(** On a key without an underscore at either end, trimming before or
    after the replacement of underscores makes no difference. *)
Lemma trim_replaceUnderscores s :
  boundaryFree (trim s) ->
  trim (replaceUnderscores s) = replaceUnderscores (trim s).
Proof.
  intros B. destruct (trim_decompose s) as [ws1 [ws2 [H1 [H2 E]]]].
  rewrite E at 1. unfold replaceUnderscores at 1. rewrite !map_app.
  apply trim_sandwich; try now apply forallb_white_replace.
  apply replaceUnderscores_tight; [apply trim_tight | assumption].
Qed.

End StringFacts.

(* ================================================================== *)
(** * Confidence *)
(* ================================================================== *)

Section ConfidenceFacts.

Lemma SFeqb_refl_finite s m e :
  SFeqb (S754_finite s m e) (S754_finite s m e) = true.
Proof.
  unfold SFeqb, SFcompare.
  destruct s; rewrite Z.compare_refl, Pos.compare_refl; reflexivity.
Qed.

(** Zeros and [NaN] are below the threshold. *)
Lemma falsy_below (f : float) :
  truthy f = false -> geb f CONFIDENCE_THRESHOLD = false.
Proof.
  unfold truthy, geb, PrimFloat.is_zero, PrimFloat.is_nan.
  rewrite leb_spec, !FloatAxioms.eqb_spec.
  destruct (Prim2SF f) as [s| s | |s m e] eqn:E.
  - intros _. destruct s; vm_compute; reflexivity.
  - destruct s; vm_compute; intros H; try discriminate H; reflexivity.
  - intros _. vm_compute. reflexivity.
  - rewrite SFeqb_refl_finite.
    assert (Hz : SFeqb (S754_finite s m e) (Prim2SF PrimFloat.zero) = false)
      by (destruct s; reflexivity).
    rewrite Hz. simpl. intros H. discriminate H.
Qed.

Lemma threshold_literal : CONFIDENCE_THRESHOLD = 0.30%float.
Proof. reflexivity. Qed.

Lemma zero_below : geb PrimFloat.zero CONFIDENCE_THRESHOLD = false.
Proof. reflexivity. Qed.

(** Defaulting a missing or falsy confidence to [0] does not change the
    comparison with the threshold. *)
Lemma geb_orZero (c : option float) :
  geb (orZero c) CONFIDENCE_THRESHOLD = confidenceAtLeast c CONFIDENCE_THRESHOLD.
Proof.
  destruct c as [f|]; simpl; [|apply zero_below].
  destruct (truthy f) eqn:T; [reflexivity|].
  now rewrite zero_below, falsy_below.
Qed.

End ConfidenceFacts.

(* ================================================================== *)
(** * checkResult: the verdict *)
(* ================================================================== *)

Section Verdict.

(** The code's key form is the replacement of underscores in the
    lower-cased, trimmed key. *)
Lemma targetKeyOf_replace k :
  targetKeyOf k = replaceUnderscores (trim (toLowerCase k)).
Proof. apply join_split_replace. Qed.

(** Away from keys with an underscore at an end, it is the canonical
    form of the specification. *)
Lemma targetKeyOf_canonical k :
  boundaryFree (trim k) -> targetKeyOf k = canonicalKey_spec k.
Proof.
  intros B. rewrite targetKeyOf_replace. unfold canonicalKey_spec.
  rewrite toLowerCase_replaceUnderscores, trim_replaceUnderscores;
    [reflexivity|].
  rewrite trim_toLowerCase. now apply boundaryFree_toLowerCase.
Qed.

(** On such keys the code's key form is stable under a second
    application. *)
Lemma targetKeyOf_idempotent k :
  boundaryFree (trim k) -> targetKeyOf (targetKeyOf k) = targetKeyOf k.
Proof.
  intros B.
  assert (Y : targetKeyOf k = trim (replaceUnderscores (toLowerCase k))).
  { rewrite targetKeyOf_canonical by assumption. unfold canonicalKey_spec.
    now rewrite toLowerCase_replaceUnderscores. }
  assert (L : toLowerCase (targetKeyOf k) = targetKeyOf k).
  { rewrite targetKeyOf_replace, toLowerCase_replaceUnderscores.
    now rewrite <- trim_toLowerCase, toLowerCase_idem. }
  rewrite (targetKeyOf_replace (targetKeyOf k)), L.
  rewrite Y at 1. rewrite trim_idem, <- Y.
  rewrite targetKeyOf_replace. unfold replaceUnderscores.
  rewrite map_map. apply map_ext, underscoreToSpace_idem.
Qed.

(** What [checkResult] does once the result has a text, the current
    target exists and a first alternative exists. *)
Lemma checkResult_evaluated s result t target alt :
  text result = Some t ->
  at_index (targets (globals s)) (currentTargetIndex (globals s)) = Some target ->
  bestAlternativeOf result = Some alt ->
  let w := recognizedOf (alt_text alt) in
  let c := orZero (conf alt) in
  let s' := finalState (checkResult result s) in
  completion (checkResult result s) = Normal tt
  /\ globals s' = globals s
  /\ transcriptText (dom s') = TrComplete
  /\ (if isCorrectOf w (targetKeyOf (key target)) c
      then feedbackText (dom s') = FbCorrect c /\ feedbackColor (dom s') = Green
      else feedbackText (dom s') = FbTryAgain w c
           /\ feedbackColor (dom s') = Red).
Proof.
  intros Ht Hk Ha. unfold checkResult. rewrite Ht. step_monad.
  rewrite Hk, Ha. step_monad.
  destruct (isCorrectOf _ _ _); simpl; auto.
Qed.

(** Without a first alternative the feedback is the failure message. *)
Lemma checkResult_no_alternative s result t target :
  text result = Some t ->
  at_index (targets (globals s)) (currentTargetIndex (globals s)) = Some target ->
  bestAlternativeOf result = None ->
  let s' := finalState (checkResult result s) in
  completion (checkResult result s) = Normal tt
  /\ globals s' = globals s
  /\ feedbackText (dom s') = FbFailed
  /\ feedbackColor (dom s') = Red
  /\ transcriptText (dom s') = transcriptText (dom s).
Proof.
  intros Ht Hk Ha. unfold checkResult. rewrite Ht. step_monad.
  rewrite Hk, Ha. step_monad. auto.
Qed.

Lemma checkResult_verdict_iff s result t target alt :
  text result = Some t ->
  at_index (targets (globals s)) (currentTargetIndex (globals s)) = Some target ->
  bestAlternativeOf result = Some alt ->
  boundaryFree (trim (key target)) ->
  let s' := finalState (checkResult result s) in
  (verdictShown s' = Some Correct
   <-> canonicalKey_spec (key target) = canonicalText_spec (alt_text alt)
       /\ confidenceAtLeast (conf alt) CONFIDENCE_THRESHOLD = true)
  /\ (verdictShown s' <> Some Correct -> verdictShown s' = Some Incorrect).
Proof.
  intros Ht Hk Ha B.
  destruct (checkResult_evaluated s result Ht Hk Ha) as (_ & _ & _ & H).
  cbv zeta in *. unfold verdictShown.
  unfold isCorrectOf in H. rewrite geb_orZero, targetKeyOf_canonical in H by assumption.
  change (recognizedOf (alt_text alt)) with (canonicalText_spec (alt_text alt)) in H.
  destruct (str_eqb _ _) eqn:E; simpl in H.
  - apply str_eqb_eq in E.
    destruct (confidenceAtLeast _ _); destruct H as [-> _]; split;
      try (split; [intros|intros []]); try discriminate; auto; congruence.
  - apply str_eqb_neq in E. destruct H as [-> _]. split.
    + split; [discriminate | intros []; congruence].
    + reflexivity.
Qed.

Lemma checkResult_examples :
  verdictShown (finalState
    (checkResult (outcome "touch your nose" (Some 0.30%float))
                 (drillState "touch_your_nose"))) = Some Correct
  /\ verdictShown (finalState
    (checkResult (outcome "touch your nose" (Some 0.29%float))
                 (drillState "touch_your_nose"))) = Some Incorrect
  /\ forall c : option float,
       verdictShown (finalState
         (checkResult (outcome "touch you nose" c)
                      (drillState "touch_your_nose"))) = Some Incorrect.
Proof.
  split; [reflexivity|]. split; [reflexivity|].
  intros c.
  destruct (@checkResult_evaluated (drillState "touch_your_nose")
              (outcome "touch you nose" c) _ _ _ eq_refl eq_refl eq_refl)
    as (_ & _ & _ & H).
  cbv zeta in H. unfold verdictShown.
  replace (isCorrectOf _ _ _) with false in H.
  - now destruct H as [-> _].
  - unfold isCorrectOf. symmetry. apply andb_false_iff. left.
    apply str_eqb_neq. vm_compute. discriminate.
Qed.

(** A trimmed string never equals one that starts with a blank. *)
Lemma recognizedOf_no_leading_blank t c r :
  isWhiteSpace c = true -> recognizedOf t <> c :: r.
Proof.
  intros Hc E.
  assert (H := @trimStart_head (trimEnd (toLowerCase t)) c).
  unfold recognizedOf, trim in E. rewrite E in H.
  rewrite (H eq_refl) in Hc. discriminate.
Qed.

End Verdict.

(* ================================================================== *)
(** * loadTargets: parsing the targets file *)
(* ================================================================== *)

Section Parsing.

Lemma trim_cons_white c s : isWhiteSpace c = true -> trim (c :: s) = trim s.
Proof.
  intros Hc. destruct (trim_decompose s) as [ws1 [ws2 [H1 [H2 E]]]].
  rewrite E at 1. change (c :: ws1 ++ trim s ++ ws2)
    with ((c :: ws1) ++ trim s ++ ws2).
  apply trim_sandwich; simpl; try rewrite Hc; auto. apply trim_tight.
Qed.

Lemma trim_snoc_white c s : isWhiteSpace c = true -> trim (s ++ [c]) = trim s.
Proof.
  intros Hc. unfold trim. now rewrite trimEnd_snoc_white.
Qed.

Lemma consHead_app c xs ys :
  xs <> [] -> consHead c (xs ++ ys) = consHead c xs ++ ys.
Proof. intros N. destruct xs; [now destruct N|reflexivity]. Qed.

Lemma consHead_snocLast c d xs :
  xs <> [] -> consHead d (snocLast c xs) = snocLast c (consHead d xs).
Proof.
  intros N. destruct xs as [|x [|y r]]; [now destruct N|reflexivity..].
Qed.

Lemma snocLast_cons c x xs :
  xs <> [] -> snocLast c (x :: xs) = x :: snocLast c xs.
Proof. intros N. destruct xs; [now destruct N|reflexivity]. Qed.

(** Splitting a string extended by one code unit. *)
Lemma split_snoc sep s c :
  split sep (s ++ [c])
  = if Ascii.eqb c sep then split sep s ++ [[]]
    else snocLast c (split sep s).
Proof.
  induction s as [|d r IH]; simpl.
  - destruct (Ascii.eqb c sep); reflexivity.
  - rewrite IH. pose proof (split_nonempty sep r) as N.
    destruct (Ascii.eqb d sep), (Ascii.eqb c sep); simpl.
    + reflexivity.
    + destruct (split sep r); [now destruct N|reflexivity].
    + now rewrite consHead_app.
    + now rewrite consHead_snocLast.
Qed.

Lemma map_trim_consHead c fields :
  isWhiteSpace c = true -> fields <> [] ->
  map trim (consHead c fields) = map trim fields.
Proof.
  intros Hc N. destruct fields as [|f fs]; [congruence|].
  simpl. now rewrite trim_cons_white.
Qed.

Lemma map_trim_snocLast c fields :
  isWhiteSpace c = true -> fields <> [] ->
  map trim (snocLast c fields) = map trim fields.
Proof.
  intros Hc N. induction fields as [|f fs IH]; [congruence|].
  destruct fs as [|g gs].
  - simpl. now rewrite trim_snoc_white.
  - rewrite snocLast_cons by discriminate.
    change (map trim (f :: g :: gs)) with (trim f :: map trim (g :: gs)).
    rewrite <- IH by discriminate. reflexivity.
Qed.

(** Blanks at either end of a line do not change what it parses to. *)
Lemma parseLine_cons_white c line :
  isWhiteSpace c = true -> parseLine (c :: line) = parseLine line.
Proof.
  intros Hc. unfold parseLine. simpl.
  rewrite (white_not_comma _ Hc).
  now rewrite map_trim_consHead by (auto using split_nonempty).
Qed.

Lemma parseLine_snoc_white c line :
  isWhiteSpace c = true -> parseLine (line ++ [c]) = parseLine line.
Proof.
  intros Hc. unfold parseLine. rewrite split_snoc.
  rewrite (white_not_comma _ Hc).
  now rewrite map_trim_snocLast by (auto using split_nonempty).
Qed.

Lemma parseLine_empty : parseLine [] = None.
Proof. reflexivity. Qed.

Lemma filterNotNull_app {A : Type} (xs ys : list (option A)) :
  filterNotNull (xs ++ ys) = filterNotNull xs ++ filterNotNull ys.
Proof.
  induction xs as [|[a|] r IH]; simpl; congruence.
Qed.

Lemma map_parseLine_consHead c ls :
  isWhiteSpace c = true -> ls <> [] ->
  map parseLine (consHead c ls) = map parseLine ls.
Proof.
  intros Hc N. destruct ls as [|l r]; [congruence|].
  simpl. now rewrite parseLine_cons_white.
Qed.

Lemma map_parseLine_snocLast c ls :
  isWhiteSpace c = true -> ls <> [] ->
  map parseLine (snocLast c ls) = map parseLine ls.
Proof.
  intros Hc N. induction ls as [|l r IH]; [congruence|].
  destruct r as [|g gs].
  - simpl. now rewrite parseLine_snoc_white.
  - rewrite snocLast_cons by discriminate.
    change (map parseLine (l :: g :: gs))
      with (parseLine l :: map parseLine (g :: gs)).
    rewrite <- IH by discriminate. reflexivity.
Qed.

Lemma itemsOfText_cons_white c body :
  isWhiteSpace c = true -> itemsOfText (c :: body) = itemsOfText body.
Proof.
  intros Hc. unfold itemsOfText. simpl.
  destruct (Ascii.eqb c newline); simpl.
  - reflexivity.
  - now rewrite map_parseLine_consHead by (auto using split_nonempty).
Qed.

Lemma itemsOfText_snoc_white c body :
  isWhiteSpace c = true -> itemsOfText (body ++ [c]) = itemsOfText body.
Proof.
  intros Hc. unfold itemsOfText. rewrite split_snoc.
  destruct (Ascii.eqb c newline).
  - rewrite map_app, filterNotNull_app. simpl. apply app_nil_r.
  - now rewrite map_parseLine_snocLast by (auto using split_nonempty).
Qed.

Lemma itemsOfText_white_prefix ws body :
  forallb isWhiteSpace ws = true -> itemsOfText (ws ++ body) = itemsOfText body.
Proof.
  induction ws as [|c r IH]; simpl; [reflexivity|].
  intros H. apply andb_true_iff in H as [Hc Hr].
  rewrite itemsOfText_cons_white by assumption. auto.
Qed.

Lemma itemsOfText_white_suffix ws body :
  forallb isWhiteSpace ws = true -> itemsOfText (body ++ ws) = itemsOfText body.
Proof.
  revert body. induction ws as [|c r IH]; intros body H; simpl in *.
  - now rewrite app_nil_r.
  - apply andb_true_iff in H as [Hc Hr].
    change (c :: r) with ([c] ++ r). rewrite app_assoc, IH by assumption.
    now apply itemsOfText_snoc_white.
Qed.

(** Trimming the whole text first, as [loadTargets] does, changes
    nothing. *)
Lemma itemsOfText_trim body : itemsOfText (trim body) = itemsOfText body.
Proof.
  destruct (trim_decompose body) as [ws1 [ws2 [H1 [H2 E]]]].
  rewrite E at 2.
  now rewrite itemsOfText_white_prefix, itemsOfText_white_suffix.
Qed.

Lemma filterNotNull_parseLine ls :
  filterNotNull (map parseLine ls) = flat_map itemsOfLine ls.
Proof.
  induction ls as [|l r IH]; simpl; [reflexivity|].
  rewrite <- IH. unfold parseLine, itemsOfLine.
  destruct (split comma l) as [|f0 [|f1 [|f2 [|f3 [|f4 fs]]]]]; reflexivity.
Qed.

Lemma parseTargets_lines body :
  parseTargets body = flat_map itemsOfLine (split newline body).
Proof.
  unfold parseTargets. cbv zeta.
  rewrite <- filterNotNull_parseLine.
  apply itemsOfText_trim.
Qed.

End Parsing.

(* ================================================================== *)
(** * The handlers on the session state *)
(* ================================================================== *)

Section Handlers.

(** ** loadTargets *)

Lemma loadTargets_ok body s :
  let s' := finalState (loadTargets (FetchResponse true body) s) in
  completion (loadTargets (FetchResponse true body) s) = Normal tt
  /\ targets (globals s') = parseTargets body
  /\ currentTargetIndex (globals s') = currentTargetIndex (globals s)
  /\ promptText (dom s')
     = (if Nat.eqb (length (parseTargets body)) 0 then PromptFormatError
        else PromptLoaded (length (parseTargets body)))
  /\ nextDisabled (dom s')
     = (if Nat.eqb (length (parseTargets body)) 0 then nextDisabled (dom s)
        else false).
Proof.
  unfold loadTargets. step_monad.
  destruct (Nat.eqb (length (parseTargets body)) 0); simpl; auto.
Qed.

Lemma loadTargets_failed r s :
  (forall body, r <> FetchResponse true body) ->
  let s' := finalState (loadTargets r s) in
  completion (loadTargets r s) = Normal tt
  /\ globals s' = globals s
  /\ nextDisabled (dom s') = nextDisabled (dom s)
  /\ exists message, promptText (dom s') = PromptTargetError message.
Proof.
  intros H. destruct r as [m|[|] body]; simpl.
  - unfold loadTargets_catch. step_monad. eauto.
  - now destruct (H body).
  - unfold loadTargets_catch. step_monad. eauto.
Qed.

Lemma loadTargets_total r s : completion (loadTargets r s) = Normal tt.
Proof.
  destruct r as [m|[|] body].
  - now apply loadTargets_failed.
  - apply loadTargets_ok.
  - now apply loadTargets_failed.
Qed.

(** ** updateTarget *)

Lemma updateTarget_globals s :
  globals (finalState (updateTarget s)) = globals s.
Proof.
  unfold updateTarget. step_monad.
  destruct (Nat.eqb _ 0); [reflexivity|].
  destruct (at_index _ _); reflexivity.
Qed.

Lemma updateTarget_nextDisabled s :
  nextDisabled (dom (finalState (updateTarget s))) = nextDisabled (dom s).
Proof.
  unfold updateTarget. step_monad.
  destruct (Nat.eqb _ 0); [reflexivity|].
  destruct (at_index _ _); reflexivity.
Qed.

Lemma updateTarget_empty s :
  targets (globals s) = [] -> updateTarget s = (Normal tt, s).
Proof.
  intros E. unfold updateTarget. step_monad. now rewrite E.
Qed.

Lemma at_index_valid {A : Type} (arr : list A) z :
  (0 <= z < Z.of_nat (length arr))%Z ->
  exists a, at_index arr (Int z) = Some a.
Proof.
  intros [H0 H1]. unfold at_index.
  destruct (Z.ltb_spec z 0); [lia|].
  destruct (nth_error arr (Z.to_nat z)) eqn:E; [eauto|].
  apply nth_error_None in E. lia.
Qed.

Lemma updateTarget_valid s :
  validIndex s -> completion (updateTarget s) = Normal tt.
Proof.
  intros [z [Ez Hz]]. unfold updateTarget. step_monad.
  destruct (Nat.eqb _ 0); [reflexivity|].
  rewrite Ez. destruct (at_index_valid _ Hz) as [a ->]. reflexivity.
Qed.

(** ** nextTarget *)

Lemma succRem_valid z n :
  (0 <= z < Z.of_nat n)%Z ->
  succRem (Int z) n = Int ((z + 1) mod Z.of_nat n)
  /\ (0 <= (z + 1) mod Z.of_nat n < Z.of_nat n)%Z.
Proof.
  intros H. destruct n as [|k]; [simpl in H; lia|].
  unfold succRem. rewrite Z.rem_mod_nonneg by lia.
  split; [reflexivity|]. apply Z.mod_pos_bound. lia.
Qed.

Lemma nextTarget_globals s :
  globals (finalState (nextTarget s))
  = set_currentTargetIndex
      (succRem (currentTargetIndex (globals s))
               (length (targets (globals s))))
      (globals s).
Proof.
  unfold nextTarget. step_monad.
  match goal with |- globals (snd (updateTarget ?x)) = _ =>
    exact (updateTarget_globals x) end.
Qed.

Lemma nextTarget_nextDisabled s :
  nextDisabled (dom (finalState (nextTarget s))) = nextDisabled (dom s).
Proof.
  unfold nextTarget. step_monad.
  match goal with |- nextDisabled (dom (snd (updateTarget ?x))) = _ =>
    exact (updateTarget_nextDisabled x) end.
Qed.

(** From a valid index, one advance moves to the successor modulo the
    number of targets and completes normally. *)
Lemma nextTarget_valid s z :
  currentTargetIndex (globals s) = Int z ->
  (0 <= z < Z.of_nat (length (targets (globals s))))%Z ->
  let n := Z.of_nat (length (targets (globals s))) in
  completion (nextTarget s) = Normal tt
  /\ currentTargetIndex (globals (finalState (nextTarget s)))
     = Int ((z + 1) mod n)
  /\ targets (globals (finalState (nextTarget s))) = targets (globals s).
Proof.
  intros Ez Hz n. destruct (succRem_valid _ Hz) as [E B].
  split; [|rewrite nextTarget_globals, Ez, E; auto].
  unfold nextTarget. step_monad.
  match goal with |- fst (updateTarget ?x) = _ =>
    apply (@updateTarget_valid x) end.
  exists ((z + 1) mod n)%Z. simpl. rewrite Ez, E. auto.
Qed.

Lemma nextTarget_invariant s :
  indexInvariant s -> indexInvariant (finalState (nextTarget s)).
Proof.
  intros I N. rewrite nextTarget_globals in N. simpl in N.
  destruct (I N) as [z [Ez Hz]].
  destruct (nextTarget_valid s Ez Hz) as (_ & E & T).
  exists ((z + 1) mod Z.of_nat (length (targets (globals s))))%Z.
  rewrite E, T. split; [reflexivity|].
  apply Z.mod_pos_bound. lia.
Qed.

(** [k] advances from index [z] lead to [(z + k) mod n]. *)
Lemma advance_index k : forall s z,
  currentTargetIndex (globals s) = Int z ->
  (0 <= z < Z.of_nat (length (targets (globals s))))%Z ->
  let n := Z.of_nat (length (targets (globals s))) in
  completion (advance k s) = Normal tt
  /\ currentTargetIndex (globals (finalState (advance k s)))
     = Int ((z + Z.of_nat k) mod n)
  /\ targets (globals (finalState (advance k s))) = targets (globals s).
Proof.
  induction k as [|k IH]; intros s z Ez Hz n.
  - simpl. rewrite Z.add_0_r, Z.mod_small by assumption. auto.
  - destruct (nextTarget_valid s Ez Hz) as (C & E & T).
    fold n in E.
    assert (B : (0 <= (z + 1) mod n < n)%Z) by (apply Z.mod_pos_bound; lia).
    specialize (IH (finalState (nextTarget s)) _ E).
    rewrite T in IH. specialize (IH B). cbv zeta in IH. fold n in IH.
    change (advance (S k)) with (bind nextTarget (fun _ => advance k)).
    unfold bind, finalState, completion in *.
    destruct (nextTarget s) as [[[]|e] s1]; simpl in *; [|discriminate].
    destruct IH as (C' & E' & T'). repeat split; try assumption.
    rewrite E'. f_equal.
    rewrite Zplus_mod_idemp_l. f_equal. lia.
Qed.

(** ** stopRecognition *)

Lemma logged_app es1 es2 s : logged es2 (logged es1 s) = logged (es1 ++ es2) s.
Proof.
  unfold logged, withBrowser. simpl. now rewrite app_assoc.
Qed.

Lemma logged_nil s : logged [] s = s.
Proof.
  destruct s as [g d [n c]]. unfold logged, withBrowser. simpl.
  now rewrite app_nil_r.
Qed.

(** Stopping the tracks touches nothing but the browser's record, and
    what it records is an initial part of the tracks: all of them when it
    completes normally. *)
Lemma stopTracks_prefix f ts : forall s,
  exists done rest,
    ts = done ++ rest
    /\ finalState (stopTracks f ts s) = logged (map TrackStop done) s
    /\ (completion (stopTracks f ts s) = Normal tt /\ rest = []
        \/ completion (stopTracks f ts s) = Throw BrowserError
           /\ exists t, hd_error (rev done) = Some t
                        /\ trackStopThrows f t = true).
Proof.
  induction ts as [|t r IH]; intros s.
  - exists [], []. simpl. rewrite logged_nil. auto.
  - simpl. unfold bind at 1. unfold fallible, bind, call, modify. simpl.
    fold (logged [TrackStop t] s).
    destruct (trackStopThrows f t) eqn:Ft; simpl.
    + exists [t], r. simpl. split; [reflexivity|]. split; [reflexivity|].
      right. eauto.
    + destruct (IH (logged [TrackStop t] s)) as (done & rest & E & Fs & C).
      exists (t :: done), rest. simpl.
      split; [now rewrite E|]. split.
      * unfold finalState in *. rewrite Fs. apply logged_app.
      * destruct C as [[C R]|[C [u [Hu Fu]]]]; [left; auto|right].
        split; [assumption|]. exists u. split; [|assumption].
        destruct (rev done); simpl in *; [discriminate|assumption].
Qed.

Lemma stopTracks_faultFree f ts : forall s,
  (forall t, In t ts -> trackStopThrows f t = false) ->
  stopTracks f ts s = (Normal tt, logged (map TrackStop ts) s).
Proof.
  induction ts as [|t r IH]; intros s H.
  - simpl. now rewrite logged_nil.
  - simpl. unfold bind at 1. unfold fallible, bind, call, modify. simpl.
    fold (logged [TrackStop t] s).
    rewrite (H t (or_introl eq_refl)). simpl.
    rewrite IH by (intros u Hu; apply H; now right).
    now rewrite logged_app.
Qed.

Lemma logged_globals es s : globals (logged es s) = globals s.
Proof. reflexivity. Qed.

Lemma logged_dom es s : dom (logged es s) = dom s.
Proof. reflexivity. Qed.

Lemma logged_calls es s :
  calls (browser (logged es s)) = calls (browser s) ++ es.
Proof. reflexivity. Qed.

Lemma logsPrefix_seq m1 m2 full1 full2 s :
  logsPrefix m1 full1 s -> (forall s', logsPrefix m2 full2 s') ->
  logsPrefix (m1 ;; m2) (full1 ++ full2) s.
Proof.
  intros (d1 & r1 & E1 & F1 & C1) H2.
  unfold logsPrefix, bind, finalState, completion in *.
  destruct (m1 s) as [[[]|e] s1]; simpl in *.
  - rewrite (C1 eq_refl), app_nil_r in E1. subst full1 s1.
    destruct (H2 (logged d1 s)) as (d2 & r2 & E2 & F2 & C2).
    exists (d1 ++ d2), r2. rewrite E2, F2, logged_app, app_assoc. auto.
  - exists d1, (r1 ++ full2). subst. rewrite app_assoc.
    repeat split; auto. discriminate.
Qed.

Lemma logsPrefix_ret s : logsPrefix (ret tt) [] s.
Proof.
  exists [], []. unfold ret, finalState. simpl. rewrite logged_nil. auto.
Qed.

Lemma logsPrefix_fallible e b s : logsPrefix (fallible e b) [e] s.
Proof.
  unfold logsPrefix, fallible, bind, call, modify, ret, throw,
    finalState, completion.
  destruct b; simpl.
  - exists [e], []. repeat split; auto.
  - exists [e], []. repeat split; auto.
Qed.

Lemma logsPrefix_stopTracks f ts s :
  logsPrefix (stopTracks f ts) (map TrackStop ts) s.
Proof.
  destruct (stopTracks_prefix f ts s) as (done & rest & E & F & C).
  exists (map TrackStop done), (map TrackStop rest).
  split; [now rewrite E, map_app|]. split; [assumption|].
  intros N. destruct C as [[_ ->]|[C _]]; [reflexivity|congruence].
Qed.

(** The teardown re-enables the start button, leaves the globals as
    they are, and makes the calls of [teardownCalls] in order, up to the
    first one that raises. *)
Lemma stopRecognition_steps f s :
  stopRecognition f s
  = ((match mediaStream (globals s) with
      | Some ms => stopTracks f (tracks ms)
      | None => ret tt
      end ;;
      match processor (globals s) with
      | Some node => fallible (ProcessorDisconnect node) (disconnectThrows f)
      | None => ret tt
      end ;;
      match audioContext (globals s) with
      | Some ctx => fallible (ContextClose ctx) (closeThrows f)
      | None => ret tt
      end) (withDom (set_startDisabled false) s)).
Proof. reflexivity. Qed.

Lemma stopRecognition_prefix f s :
  exists done rest,
    teardownCalls (globals s) = done ++ rest
    /\ finalState (stopRecognition f s)
       = logged done (withDom (set_startDisabled false) s)
    /\ (completion (stopRecognition f s) = Normal tt -> rest = []).
Proof.
  rewrite stopRecognition_steps.
  match goal with |- exists d r, ?full = _ /\ finalState (?m ?s0) = _ /\ _ =>
    change (logsPrefix m full s0) end.
  unfold teardownCalls. apply logsPrefix_seq.
  - destruct (mediaStream (globals s));
      [apply logsPrefix_stopTracks|apply logsPrefix_ret].
  - intros s'. apply logsPrefix_seq.
    + destruct (processor (globals s));
        [apply logsPrefix_fallible|apply logsPrefix_ret].
    + intros s''. destruct (audioContext (globals s));
        [apply logsPrefix_fallible|apply logsPrefix_ret].
Qed.

Lemma stopRecognition_faultFree f s :
  faultFree f (globals s) ->
  stopRecognition f s
  = (Normal tt, logged (teardownCalls (globals s))
                       (withDom (set_startDisabled false) s)).
Proof.
  intros (Ht & Hp & Hc). rewrite stopRecognition_steps.
  unfold teardownCalls.
  set (s0 := withDom (set_startDisabled false) s).
  unfold bind at 1.
  assert (E1 : match mediaStream (globals s) with
               | Some ms => stopTracks f (tracks ms)
               | None => ret tt
               end s0
               = (Normal tt,
                  logged match mediaStream (globals s) with
                         | Some ms => map TrackStop (tracks ms)
                         | None => []
                         end s0)).
  { destruct (mediaStream (globals s)) as [ms|].
    - apply stopTracks_faultFree. intros t. now apply Ht.
    - unfold ret. now rewrite logged_nil. }
  rewrite E1. clear E1. unfold bind.
  destruct (processor (globals s)) as [node|];
    destruct (audioContext (globals s)) as [ctx|];
    unfold fallible, bind, call, modify, ret; simpl.
  - rewrite Hp, Hc by discriminate. simpl.
    fold (logged [ProcessorDisconnect node]
                 (logged match mediaStream (globals s) with
                         | Some ms => map TrackStop (tracks ms)
                         | None => []
                         end s0)).
    rewrite logged_app.
    match goal with |- (_, withBrowser _ ?x) = _ =>
      fold (logged [ContextClose ctx] x) end.
    now rewrite logged_app, <- app_assoc.
  - rewrite Hp by discriminate. simpl.
    match goal with |- (_, withBrowser _ ?x) = _ =>
      fold (logged [ProcessorDisconnect node] x) end.
    now rewrite logged_app.
  - rewrite Hc by discriminate. simpl.
    match goal with |- (_, withBrowser _ ?x) = _ =>
      fold (logged [ContextClose ctx] x) end.
    now rewrite logged_app.
  - now rewrite ?app_nil_r.
Qed.

Lemma stopRecognition_core f s :
  globals (finalState (stopRecognition f s)) = globals s
  /\ dom (finalState (stopRecognition f s)) = set_startDisabled false (dom s).
Proof.
  destruct (stopRecognition_prefix f s) as (d & r & _ & -> & _).
  split; reflexivity.
Qed.

End Handlers.

(* ================================================================== *)
(** * The session along the events *)
(* ================================================================== *)

Section Session.

Lemma checkResult_core result s :
  sessionCore (finalState (checkResult result s)) = sessionCore s.
Proof.
  unfold checkResult. destruct (text result); [|reflexivity].
  step_monad. destruct (at_index _ _); [|reflexivity].
  destruct (bestAlternativeOf result); [|reflexivity].
  step_monad. destruct (isCorrectOf _ _ _); reflexivity.
Qed.

Lemma stopRecognition_sessionCore f s :
  sessionCore (finalState (stopRecognition f s)) = sessionCore s.
Proof.
  destruct (stopRecognition_core f s) as [G D].
  unfold sessionCore. now rewrite G, D.
Qed.

Lemma onfinalresult_core result f s :
  sessionCore (finalState (onfinalresult result f s)) = sessionCore s.
Proof.
  unfold onfinalresult. destruct (textTruthy result).
  - pose proof (checkResult_core result s) as C.
    unfold bind, finalState in *.
    destruct (checkResult result s) as [[[]|e] s1]; simpl in *; [|assumption].
    rewrite <- C. apply stopRecognition_sessionCore.
  - apply stopRecognition_sessionCore.
Qed.

Lemma startRecognition_core mic s :
  sessionCore (finalState (startRecognition mic s)) = sessionCore s.
Proof.
  unfold startRecognition. step_monad.
  destruct (recognizer (globals s)).
  - destruct mic; reflexivity.
  - unfold setupRecognizer. step_monad.
    destruct (Nat.eqb _ 0); reflexivity.
Qed.

Lemma sessionInvariant_core p p' :
  sessionCore (app p') = sessionCore (app p) -> loadFired p' = loadFired p ->
  sessionInvariant p -> sessionInvariant p'.
Proof.
  unfold sessionCore, sessionInvariant, validIndex.
  intros E L. injection E as Et Ei En. now rewrite Et, Ei, En, L.
Qed.

Lemma sessionInvariant_init b : sessionInvariant (initialPage b true).
Proof.
  split; simpl; [auto|congruence].
Qed.

Lemma onload_session r p :
  loadFired p = false -> sessionInvariant p ->
  sessionInvariant {| app := finalState (onload r (app p)); loadFired := true |}.
Proof.
  intros L [J0 J1].
  assert (T : targets (globals (app p)) = []).
  { destruct (targets (globals (app p))) eqn:E; [reflexivity|].
    assert (N : d :: l <> []) by discriminate.
    destruct (J1 N) as [_ F].
    congruence. }
  destruct (J0 T) as [I D].
  unfold onload, bind, finalState.
  pose proof (loadTargets_total r (app p)) as C. unfold completion in C.
  destruct (loadTargets r (app p)) as [c s1] eqn:E1. simpl in C. subst c.
  assert (F : s1 = finalState (loadTargets r (app p)))
    by (unfold finalState; now rewrite E1).
  pose proof (updateTarget_globals s1) as UG.
  pose proof (updateTarget_nextDisabled s1) as UN.
  unfold finalState in UG, UN.
  unfold sessionInvariant, validIndex. simpl. rewrite UG, UN.
  destruct r as [m|[|] body].
  - destruct (@loadTargets_failed (FetchRejected m) (app p)) as (_ & G & N & _);
      [discriminate|]. rewrite <- F in *. rewrite G, N.
    split; [auto|]. intros X. now destruct X.
  - destruct (loadTargets_ok body (app p)) as (_ & Ts & Ix & _ & N).
    rewrite <- F in *. rewrite Ts, Ix, N, I.
    destruct (parseTargets body) as [|t ts]; simpl.
    + split; [auto|]. intros X. now destruct X.
    + split; [discriminate|]. intros _. split; [|reflexivity].
      exists 0%Z. split; [reflexivity|lia].
  - destruct (@loadTargets_failed (FetchResponse false body) (app p))
      as (_ & G & N & _); [discriminate|]. rewrite <- F in *. rewrite G, N.
    split; [auto|]. intros X. now destruct X.
Qed.

Lemma nextTarget_session p :
  nextDisabled (dom (app p)) = false -> sessionInvariant p ->
  sessionInvariant {| app := finalState (nextTarget (app p));
                      loadFired := loadFired p |}.
Proof.
  intros D [J0 J1].
  assert (N : targets (globals (app p)) <> []).
  { intros T. destruct (J0 T) as [_ X]. congruence. }
  destruct (J1 N) as [[z [Ez Hz]] L].
  destruct (nextTarget_valid (app p) Ez Hz) as (_ & E & T).
  unfold sessionInvariant, validIndex. simpl. rewrite E, T. split.
  - intros X. now destruct (N X).
  - intros _. split; [|assumption].
    eexists. split; [reflexivity|]. apply Z.mod_pos_bound. lia.
Qed.

Lemma dispatch_session p e : sessionInvariant p -> sessionInvariant (dispatch p e).
Proof.
  intros J. unfold dispatch. destruct (deliverable p e) eqn:D; [|assumption].
  destruct e as [r|mic| |result f|partial]; simpl in *.
  - apply onload_session; [|assumption]. now destruct (loadFired p).
  - eapply sessionInvariant_core; [| |exact J]; simpl; auto.
    apply startRecognition_core.
  - apply nextTarget_session; [|assumption].
    now destruct (nextDisabled (dom (app p))).
  - eapply sessionInvariant_core; [| |exact J]; simpl; auto.
    apply onfinalresult_core.
  - eapply sessionInvariant_core; [| |exact J]; simpl; auto.
Qed.

Lemma reachable_session p0 p :
  sessionInvariant p0 -> reachable p0 p -> sessionInvariant p.
Proof.
  intros J R. induction R; [assumption|]. now apply dispatch_session.
Qed.

Lemma reachable_trans p0 p1 p2 :
  reachable p0 p1 -> reachable p1 p2 -> reachable p0 p2.
Proof.
  intros R1 R2. induction R2; [assumption|]. now constructor.
Qed.

Lemma reachable_run p0 es : reachable p0 (run p0 es).
Proof.
  unfold run. revert p0. induction es as [|e r IH]; intros p0; simpl.
  - constructor.
  - eapply reachable_trans; [|apply IH].
    constructor. constructor.
Qed.

Lemma sessionInvariant_index p : sessionInvariant p -> indexInvariant (app p).
Proof.
  intros [_ J] N. now destruct (J N).
Qed.

(** A click on the disabled start button changes nothing. *)
Lemma disabled_start_ignored p mic :
  startDisabled (dom (app p)) = true -> dispatch p (StartClick mic) = p.
Proof.
  intros D. unfold dispatch. simpl. now rewrite D.
Qed.

(** A start with the recogniser ready disables the start button when the
    microphone is granted. *)
Lemma startRecognition_disables s r ts :
  recognizer (globals s) = Some r ->
  startDisabled (dom (finalState (startRecognition (MicGranted ts) s))) = true.
Proof.
  intros R. unfold startRecognition. step_monad. now rewrite R.
Qed.

End Session.

(* ================================================================== *)
(** * The teardown under failures *)
(* ================================================================== *)

Section TeardownFaults.

Lemma upToFirstRaise_app f l1 l2 :
  upToFirstRaise f (l1 ++ l2)
  = if existsb (raisesOn f) l1 then upToFirstRaise f l1
    else l1 ++ upToFirstRaise f l2.
Proof.
  induction l1 as [|e r IH]; simpl; [reflexivity|].
  destruct (raisesOn f e); simpl; [reflexivity|].
  rewrite IH. now destruct (existsb (raisesOn f) r).
Qed.

Lemma upToFirstRaise_none f l :
  existsb (raisesOn f) l = false -> upToFirstRaise f l = l.
Proof.
  induction l as [|e r IH]; simpl; [reflexivity|].
  destruct (raisesOn f e); simpl; [discriminate|].
  intros H. now rewrite IH.
Qed.

Lemma runsUntilRaise_seq f m1 m2 full1 full2 s :
  runsUntilRaise f m1 full1 s ->
  (forall s', runsUntilRaise f m2 full2 s') ->
  runsUntilRaise f (m1 ;; m2) (full1 ++ full2) s.
Proof.
  unfold runsUntilRaise, bind. intros H1 H2.
  rewrite H1, existsb_app, upToFirstRaise_app.
  destruct (existsb (raisesOn f) full1) eqn:E; simpl; [reflexivity|].
  now rewrite H2, logged_app, (upToFirstRaise_none f full1 E).
Qed.

Lemma runsUntilRaise_ret f s : runsUntilRaise f (ret tt) [] s.
Proof.
  unfold runsUntilRaise, ret. simpl. now rewrite logged_nil.
Qed.

Lemma runsUntilRaise_fallible f e s :
  runsUntilRaise f (fallible e (raisesOn f e)) [e] s.
Proof.
  unfold runsUntilRaise, fallible, bind, call, modify, ret, throw. simpl.
  rewrite orb_false_r. now destruct (raisesOn f e).
Qed.

Lemma runsUntilRaise_stopTracks f ts : forall s,
  runsUntilRaise f (stopTracks f ts) (map TrackStop ts) s.
Proof.
  induction ts as [|t r IH]; intros s.
  - apply runsUntilRaise_ret.
  - change (map TrackStop (t :: r)) with ([TrackStop t] ++ map TrackStop r).
    change (stopTracks f (t :: r))
      with (fallible (TrackStop t) (raisesOn f (TrackStop t)) ;;
            stopTracks f r).
    apply runsUntilRaise_seq; [apply runsUntilRaise_fallible|exact IH].
Qed.

(** The teardown makes its calls in order and stops at the first one
    that raises. *)
Lemma stopRecognition_exact f s :
  stopRecognition f s
  = (if existsb (raisesOn f) (teardownCalls (globals s))
     then Throw BrowserError else Normal tt,
     logged (upToFirstRaise f (teardownCalls (globals s)))
            (withDom (set_startDisabled false) s)).
Proof.
  rewrite stopRecognition_steps.
  match goal with |- ?m ?s0 = (if existsb _ ?full then _ else _, _) =>
    change (runsUntilRaise f m full s0) end.
  unfold teardownCalls. apply runsUntilRaise_seq.
  - destruct (mediaStream (globals s));
      [apply runsUntilRaise_stopTracks|apply runsUntilRaise_ret].
  - intros s'. apply runsUntilRaise_seq.
    + destruct (processor (globals s)) as [node|];
        [apply (runsUntilRaise_fallible f (ProcessorDisconnect node))
        |apply runsUntilRaise_ret].
    + intros s''. destruct (audioContext (globals s)) as [ctx|];
        [apply (runsUntilRaise_fallible f (ContextClose ctx))
        |apply runsUntilRaise_ret].
Qed.

(** When a call of the teardown raises, the calls before it and the
    call itself are made, and none after it. *)
Lemma stopRecognition_aborts f s pre e post :
  teardownCalls (globals s) = pre ++ e :: post ->
  existsb (raisesOn f) pre = false -> raisesOn f e = true ->
  stopRecognition f s
  = (Throw BrowserError,
     logged (pre ++ [e]) (withDom (set_startDisabled false) s)).
Proof.
  intros E P R. rewrite stopRecognition_exact, E.
  rewrite existsb_app, upToFirstRaise_app, P. simpl. now rewrite R.
Qed.

End TeardownFaults.

(* ================================================================== *)
(** * The specified properties *)
(* ================================================================== *)

(** ** Matching *)

(** C1, as stated, fails: with the key ["_a"], the recognised text ["a"]
    and confidence 0.5, the canonical forms of the specification agree
    and the confidence passes the threshold, yet [checkResult] shows the
    Incorrect feedback, because it trims the key before it replaces the
    underscores. *)
Lemma match_verdict_boundary_underscore :
  ~ (verdictShown (finalState
       (checkResult (outcome "a" (Some 0.5%float)) (drillState "_a")))
     = Some Correct
     <-> canonicalKey_spec (lit "_a") = canonicalText_spec (lit "a")
         /\ confidenceAtLeast (Some 0.5%float) CONFIDENCE_THRESHOLD = true).
Proof.
  intros [_ H]. specialize (H (conj eq_refl eq_refl)).
  vm_compute in H. discriminate H.
Qed.

(** C1, amended: for every state whose current target's trimmed key
    neither begins nor ends with an underscore, and every final result
    with a first alternative, [checkResult] shows Correct if and only if
    the canonical key (underscores replaced by spaces, lower-cased,
    trimmed) equals the canonical recognised text (lower-cased, trimmed)
    and the confidence is present and at least 0.30; otherwise it shows
    Incorrect.  Key "touch_your_nose" with "touch your nose" is Correct
    at 0.30 and Incorrect at 0.29, and "touch you nose" is Incorrect at
    every confidence. *)
Theorem match_verdict :
  (forall s result t target alt,
     text result = Some t ->
     at_index (targets (globals s)) (currentTargetIndex (globals s))
     = Some target ->
     bestAlternativeOf result = Some alt ->
     boundaryFree (trim (key target)) ->
     let s' := finalState (checkResult result s) in
     (verdictShown s' = Some Correct
      <-> canonicalKey_spec (key target) = canonicalText_spec (alt_text alt)
          /\ confidenceAtLeast (conf alt) CONFIDENCE_THRESHOLD = true)
     /\ (verdictShown s' <> Some Correct -> verdictShown s' = Some Incorrect))
  /\ verdictShown (finalState
       (checkResult (outcome "touch your nose" (Some 0.30%float))
                    (drillState "touch_your_nose"))) = Some Correct
  /\ verdictShown (finalState
       (checkResult (outcome "touch your nose" (Some 0.29%float))
                    (drillState "touch_your_nose"))) = Some Incorrect
  /\ forall c : option float,
       verdictShown (finalState
         (checkResult (outcome "touch you nose" c)
                      (drillState "touch_your_nose"))) = Some Incorrect.
Proof.
  split; [exact checkResult_verdict_iff | exact checkResult_examples].
Qed.

Lemma match_verdict_witness :
  let s' := finalState (checkResult (outcome "Touch Nose " (Some 0.5%float))
                                    (drillState "touch_nose")) in
  (verdictShown s' = Some Correct
   <-> canonicalKey_spec (lit "touch_nose")
       = canonicalText_spec (lit "Touch Nose ")
       /\ confidenceAtLeast (Some 0.5%float) CONFIDENCE_THRESHOLD = true)
  /\ (verdictShown s' <> Some Correct -> verdictShown s' = Some Incorrect).
Proof.
  apply (proj1 match_verdict (drillState "touch_nose")
               (outcome "Touch Nose " (Some 0.5%float))
               (lit "Touch Nose ") (drillItem "touch_nose")
               {| alt_text := lit "Touch Nose "; conf := Some 0.5%float |}).
  - reflexivity.
  - reflexivity.
  - reflexivity.
  - split; vm_compute; discriminate.
Defined.

(** C3: the canonicalisation that [checkResult] applies to the expected
    key is not idempotent.  On the key ["_a"] it yields [" a"], and
    applied again ["a"]; and since the recognised word is always
    trimmed, no recognition result can match such a target. *)
Theorem targetKey_not_idempotent :
  targetKeyOf (lit "_a") = lit " a"
  /\ targetKeyOf (targetKeyOf (lit "_a")) = lit "a"
  /\ targetKeyOf (targetKeyOf (lit "_a")) <> targetKeyOf (lit "_a")
  /\ forall heard confidence,
       isCorrectOf (recognizedOf heard) (targetKeyOf (lit "_a")) confidence
       = false.
Proof.
  split; [reflexivity|]. split; [reflexivity|].
  split; [vm_compute; discriminate|].
  intros heard confidence. unfold isCorrectOf.
  apply andb_false_iff. left. apply str_eqb_neq.
  change (targetKeyOf (lit "_a")) with (space :: lit "a").
  now apply recognizedOf_no_leading_blank.
Qed.

(** C10: when the first alternative carries no confidence, or a falsy
    one (a zero or NaN), [checkResult] takes the confidence to be 0 and
    shows Incorrect, whatever the recognised text, equal to the target
    key or not. *)
Theorem missing_confidence_is_incorrect s result t target alt :
  text result = Some t ->
  at_index (targets (globals s)) (currentTargetIndex (globals s))
  = Some target ->
  bestAlternativeOf result = Some alt ->
  (conf alt = None \/ exists f, conf alt = Some f /\ truthy f = false) ->
  let s' := finalState (checkResult result s) in
  orZero (conf alt) = PrimFloat.zero
  /\ feedbackText (dom s')
     = FbTryAgain (recognizedOf (alt_text alt)) PrimFloat.zero
  /\ verdictShown s' = Some Incorrect.
Proof.
  intros Ht Hk Ha Hc s'.
  assert (Z : orZero (conf alt) = PrimFloat.zero).
  { destruct Hc as [-> | [f [-> F]]]; simpl; [reflexivity|now rewrite F]. }
  destruct (checkResult_evaluated s result Ht Hk Ha) as (_ & _ & _ & H).
  cbv zeta in H. fold s' in H. rewrite Z in H.
  unfold isCorrectOf in H. rewrite zero_below, andb_false_r in H.
  destruct H as [H _]. unfold verdictShown. rewrite H. auto.
Qed.

Lemma missing_confidence_is_incorrect_witness :
  let s' := finalState (checkResult (outcome "touch nose" None)
                                    (drillState "touch_nose")) in
  orZero None = PrimFloat.zero
  /\ feedbackText (dom s')
     = FbTryAgain (recognizedOf (lit "touch nose")) PrimFloat.zero
  /\ verdictShown s' = Some Incorrect.
Proof.
  apply (@missing_confidence_is_incorrect (drillState "touch_nose")
           (outcome "touch nose" None) (lit "touch nose")
           (drillItem "touch_nose")
           {| alt_text := lit "touch nose"; conf := None |}).
  - reflexivity.
  - reflexivity.
  - reflexivity.
  - left. reflexivity.
Defined.

(** C4, as stated, fails: a final result whose text is empty is never
    evaluated, so no verdict is shown at all; the feedback area keeps
    what it showed while listening. *)
Lemma empty_text_shows_no_verdict :
  ~ (forall s result f,
       textTruthy result = false ->
       verdictShown (finalState (onfinalresult result f s))
       = Some NoSpeechDetected).
Proof.
  intros H.
  specialize (H (app listeningPage) silentResult noFaults eq_refl).
  vm_compute in H. discriminate H.
Qed.

(** C4, amended: a final result without text (missing or empty) is not
    evaluated: its handler is the capture teardown and nothing else, so
    the feedback, its colour and the transcript stay as they were and
    no verdict is shown for it.  A final result with a text but without
    a first alternative, evaluated against an existing target, shows
    the distinct NoSpeechDetected feedback in red, not the Incorrect
    one, and then the teardown runs. *)
Theorem no_alternative_verdict s result f :
  (textTruthy result = false ->
     let s' := finalState (onfinalresult result f s) in
     onfinalresult result f s = stopRecognition f s
     /\ feedbackText (dom s') = feedbackText (dom s)
     /\ feedbackColor (dom s') = feedbackColor (dom s)
     /\ transcriptText (dom s') = transcriptText (dom s)
     /\ verdictShown s' = verdictShown s
     /\ startDisabled (dom s') = false
     /\ globals s' = globals s)
  /\ (textTruthy result = true ->
      bestAlternativeOf result = None ->
      forall target,
        at_index (targets (globals s)) (currentTargetIndex (globals s))
        = Some target ->
        let s' := finalState (onfinalresult result f s) in
        onfinalresult result f s
        = stopRecognition f
            (withDom (set_feedbackColor Red)
                     (withDom (set_feedbackText FbFailed) s))
        /\ verdictShown s' = Some NoSpeechDetected
        /\ verdictShown s' <> Some Incorrect
        /\ feedbackColor (dom s') = Red
        /\ transcriptText (dom s') = transcriptText (dom s)
        /\ startDisabled (dom s') = false
        /\ globals s' = globals s).
Proof.
  split.
  - intros T. unfold onfinalresult. rewrite T.
    change (bind (ret tt) (fun _ => stopRecognition f) s)
      with (stopRecognition f s).
    destruct (stopRecognition_core f s) as [G D].
    cbv zeta. unfold verdictShown. rewrite D. auto 10.
  - intros T A target K. unfold onfinalresult. rewrite T.
    assert (Ht : exists t, text result = Some t).
    { unfold textTruthy in T. destruct (text result); [eauto|discriminate]. }
    destruct Ht as [t Ht].
    assert (C : checkResult result s
                = (Normal tt,
                   withDom (set_feedbackColor Red)
                           (withDom (set_feedbackText FbFailed) s))).
    { unfold checkResult. rewrite Ht. step_monad. now rewrite K, A. }
    unfold bind. rewrite C. cbv zeta.
    match goal with |- context [stopRecognition f ?x] =>
      destruct (stopRecognition_core f x) as [G D] end.
    unfold verdictShown. rewrite D, G. simpl.
    repeat split. discriminate.
Qed.

Lemma no_alternative_verdict_witness :
  (let s' := finalState (onfinalresult silentResult noFaults
                                       (app listeningPage)) in
   onfinalresult silentResult noFaults (app listeningPage)
   = stopRecognition noFaults (app listeningPage)
   /\ feedbackText (dom s') = feedbackText (dom (app listeningPage))
   /\ feedbackColor (dom s') = feedbackColor (dom (app listeningPage))
   /\ transcriptText (dom s') = transcriptText (dom (app listeningPage))
   /\ verdictShown s' = verdictShown (app listeningPage)
   /\ startDisabled (dom s') = false
   /\ globals s' = globals (app listeningPage))
  /\ (let s' := finalState (onfinalresult unrankedResult noFaults
                                          (app listeningPage)) in
      onfinalresult unrankedResult noFaults (app listeningPage)
      = stopRecognition noFaults
          (withDom (set_feedbackColor Red)
                   (withDom (set_feedbackText FbFailed) (app listeningPage)))
      /\ verdictShown s' = Some NoSpeechDetected
      /\ verdictShown s' <> Some Incorrect
      /\ feedbackColor (dom s') = Red
      /\ transcriptText (dom s') = transcriptText (dom (app listeningPage))
      /\ startDisabled (dom s') = false
      /\ globals s' = globals (app listeningPage)).
Proof.
  split.
  - apply (proj1 (no_alternative_verdict (app listeningPage) silentResult
                                         noFaults)).
    reflexivity.
  - apply (proj2 (no_alternative_verdict (app listeningPage) unrankedResult
                                         noFaults)
                 eq_refl eq_refl (drillItem "touch_nose")).
    reflexivity.
Defined.

(** ** Parsing *)

(** C2: for every text, the parser yields, line by line and in order,
    one item for each line that splits on commas into exactly four
    fields, made of the four trimmed fields (key, display, path,
    category), and nothing for any other line; the targets are set to
    that sequence; and when it is empty the load completes normally,
    with the format error shown as the prompt. *)
Theorem parse_targets body s :
  parseTargets body = flat_map itemsOfLine (split newline body)
  /\ completion (loadTargets (FetchResponse true body) s) = Normal tt
  /\ targets (globals (finalState (loadTargets (FetchResponse true body) s)))
     = parseTargets body
  /\ (flat_map itemsOfLine (split newline body) = [] ->
      let r := onload (FetchResponse true body) s in
      completion r = Normal tt
      /\ targets (globals (finalState r)) = []
      /\ promptText (dom (finalState r)) = PromptFormatError).
Proof.
  destruct (loadTargets_ok body s) as (C & T & _ & P & _).
  split; [apply parseTargets_lines|]. split; [assumption|].
  split; [assumption|].
  intros E. rewrite <- parseTargets_lines in E.
  rewrite E in T, P.
  change (promptText
            (dom (finalState (loadTargets (FetchResponse true body) s)))
          = PromptFormatError) in P.
  unfold onload, bind, finalState, completion in *.
  destruct (loadTargets (FetchResponse true body) s) as [c s1].
  simpl in *. subst c. rewrite (updateTarget_empty s1 T). simpl. auto.
Qed.

Lemma parse_targets_witness :
  let r := onload (FetchResponse true malformedLines) (initialState true true) in
  completion r = Normal tt
  /\ targets (globals (finalState r)) = []
  /\ promptText (dom (finalState r)) = PromptFormatError.
Proof.
  apply (proj2 (proj2 (proj2
           (parse_targets malformedLines (initialState true true))))).
  reflexivity.
Defined.

(** ** Grammar *)

(** C6: the grammar list holds, for each target in order (duplicates
    kept), its key with underscores replaced by spaces and lower-cased;
    and the recogniser built from a state depends on its target
    sequence only. *)
Theorem grammar_build :
  (forall ts, grammarList ts = map (fun t => phrase_spec (key t)) ts)
  /\ (forall ts, length (grammarList ts) = length ts)
  /\ (forall ts i,
        nth_error (grammarList ts) i
        = option_map (fun t => phrase_spec (key t)) (nth_error ts i))
  /\ (forall s,
        recognizer (globals (finalState (setupRecognizer s)))
        = if Nat.eqb (length (targets (globals s))) 0
          then recognizer (globals s)
          else Some {| grammar :=
                 {| start := lit "root";
                    root := join (lit " | ")
                              (map (fun t => phrase_spec (key t))
                                   (targets (globals s))) |} |}).
Proof.
  assert (G : forall ts,
             grammarList ts = map (fun t => phrase_spec (key t)) ts).
  { intros ts. unfold grammarList. apply map_ext. intros t.
    unfold grammarPhrase, phrase_spec.
    now rewrite join_split_replace, toLowerCase_replaceUnderscores. }
  split; [exact G|]. split; [|split].
  - intros ts. unfold grammarList. apply length_map.
  - intros ts i. rewrite G. apply nth_error_map.
  - intros s. unfold setupRecognizer, bind, gets, ret, assignGlobal, modify,
      finalState. simpl.
    destruct (Nat.eqb _ 0); [reflexivity|].
    simpl. unfold buildGrammar. now rewrite G.
Qed.

(** ** Advancing *)

(** C5: with a non-empty target sequence of length N, an advance from a
    valid index i sets the index to (i + 1) modulo N; and from index 0
    the indices found before each of N successive advances are
    0, 1, ..., N-1 in this order, the N advances complete normally, and
    the index is 0 again after them. *)
Theorem advance_cyclic s :
  targets (globals s) <> [] ->
  let n := length (targets (globals s)) in
  (forall z,
     currentTargetIndex (globals s) = Int z ->
     (0 <= z < Z.of_nat n)%Z ->
     currentTargetIndex (globals (finalState (nextTarget s)))
     = Int ((z + 1) mod Z.of_nat n))
  /\ (currentTargetIndex (globals s) = Int 0 ->
      map (fun k => currentTargetIndex (globals (finalState (advance k s))))
          (seq 0 n)
      = map (fun k => Int (Z.of_nat k)) (seq 0 n)
      /\ completion (advance n s) = Normal tt
      /\ currentTargetIndex (globals (finalState (advance n s))) = Int 0).
Proof.
  intros N n. split.
  - intros z Ez Hz. now destruct (nextTarget_valid s Ez Hz) as (_ & E & _).
  - intros E0.
    assert (Hn : (0 < Z.of_nat n)%Z).
    { unfold n. destruct (targets (globals s)); [now destruct N|simpl; lia]. }
    assert (H0 : (0 <= 0 < Z.of_nat (length (targets (globals s))))%Z)
      by (fold n; lia).
    split; [|split].
    + apply map_ext_in. intros k Hk. apply in_seq in Hk.
      destruct (advance_index k s E0 H0) as (_ & E & _). rewrite E.
      f_equal. fold n. rewrite Z.add_0_l. apply Z.mod_small. lia.
    + now destruct (advance_index n s E0 H0) as (C & _ & _).
    + destruct (advance_index n s E0 H0) as (_ & E & _). rewrite E.
      f_equal. fold n. rewrite Z.add_0_l. apply Z.mod_same. lia.
Qed.

Lemma advance_cyclic_witness :
  map (fun k =>
         currentTargetIndex (globals (finalState (advance k threeTargets))))
      (seq 0 3)
  = [Int 0; Int 1; Int 2]
  /\ completion (advance 3 threeTargets) = Normal tt
  /\ currentTargetIndex (globals (finalState (advance 3 threeTargets)))
     = Int 0.
Proof.
  assert (N : targets (globals threeTargets) <> [])
    by (vm_compute; discriminate).
  apply (proj2 (advance_cyclic threeTargets N)).
  reflexivity.
Defined.

(** C7, as stated, fails: a load does not preserve the invariant from
    every state that satisfies it.  [loadTargets] never assigns the
    index, so from the page on which Next was clicked before the targets
    arrived (no targets, index NaN) it yields targets with the index
    still NaN. *)
Lemma load_does_not_preserve_index :
  ~ (forall r s,
       indexInvariant s -> indexInvariant (finalState (loadTargets r s))).
Proof.
  intros H.
  assert (I : indexInvariant (app earlyNextPage))
    by (intros N; now destruct N).
  destruct (H (FetchResponse true sampleBody) (app earlyNextPage) I)
    as (z & E & _).
  - vm_compute. discriminate.
  - vm_compute in E. discriminate E.
Qed.

(** C7, amended: whenever the target sequence is non-empty the current
    index points into it, on every page reached from the initial one
    through the handlers when the Next button starts disabled (only a
    successful load enables it).  An advance preserves this from any
    state; a load, which leaves the index alone, establishes it from
    index 0, where the script starts. *)
Theorem index_valid :
  (forall s, indexInvariant s -> indexInvariant (finalState (nextTarget s)))
  /\ (forall r s,
        currentTargetIndex (globals s) = Int 0 ->
        indexInvariant (finalState (loadTargets r s)))
  /\ (forall startDisabled0 p,
        reachable (initialPage startDisabled0 true) p ->
        indexInvariant (app p)).
Proof.
  split; [exact nextTarget_invariant|]. split.
  - intros r s I N.
    assert (E : currentTargetIndex
                  (globals (finalState (loadTargets r s))) = Int 0).
    { destruct r as [m|[|] body].
      - destruct (@loadTargets_failed (FetchRejected m) s) as (_ & G & _);
          [discriminate|]. now rewrite G.
      - destruct (loadTargets_ok body s) as (_ & _ & Ix & _). now rewrite Ix.
      - destruct (@loadTargets_failed (FetchResponse false body) s)
          as (_ & G & _); [discriminate|]. now rewrite G. }
    exists 0%Z. split; [assumption|].
    destruct (targets (globals (finalState (loadTargets r s))));
      [now destruct N|simpl; lia].
  - intros b p R. apply sessionInvariant_index.
    apply (reachable_session (sessionInvariant_init b) R).
Qed.

Lemma index_valid_witness :
  indexInvariant
    (app (run (initialPage true true)
              [NextClick; WindowLoad (FetchResponse true threeLines);
               NextClick; NextClick; NextClick; NextClick])).
Proof.
  apply (proj2 (proj2 index_valid) true).
  cbv [run fold_left]. repeat apply reach_step. apply reach_init.
Defined.

(** ** Capture *)

(** C8, as stated, fails: when stopping a track raises, the exception
    leaves [stopRecognition] at once; the processor is not disconnected
    and the audio context is not closed. *)
Lemma teardown_aborts_on_fault :
  ~ (forall f s ctx ms node,
       audioContext (globals s) = Some ctx ->
       mediaStream (globals s) = Some ms ->
       processor (globals s) = Some node ->
       let s' := finalState (stopRecognition f s) in
       (forall t, In t (tracks ms) -> called s' (TrackStop t) = true)
       /\ called s' (ProcessorDisconnect node) = true
       /\ called s' (ContextClose ctx) = true).
Proof.
  intros H.
  destruct (H trackFault (app listeningPage) 0
              {| stream_id := 1; tracks := [10] |} 2
              eq_refl eq_refl eq_refl) as (_ & D & _).
  vm_compute in D. discriminate D.
Qed.

(** C8, amended: the teardown re-enables the start button, keeps the
    globals, and makes its browser calls in the order stop-the-tracks,
    disconnect-the-processor, close-the-context, each one present
    exactly when its own resource is held.  It completes normally, with
    all of them made, when none of the calls raises.  The steps are not
    isolated from one another: the calls made are those up to and
    including the first that raises, the exception leaves
    [stopRecognition], and no later call is attempted. *)
Theorem teardown_sequence f s :
  let s' := finalState (stopRecognition f s) in
  startDisabled (dom s') = false
  /\ globals s' = globals s
  /\ (exists done rest,
        teardownCalls (globals s) = done ++ rest
        /\ calls (browser s') = calls (browser s) ++ done
        /\ (completion (stopRecognition f s) = Normal tt -> rest = []))
  /\ (faultFree f (globals s) ->
      completion (stopRecognition f s) = Normal tt
      /\ calls (browser s') = calls (browser s) ++ teardownCalls (globals s))
  /\ calls (browser s')
     = calls (browser s) ++ upToFirstRaise f (teardownCalls (globals s))
  /\ completion (stopRecognition f s)
     = (if existsb (raisesOn f) (teardownCalls (globals s))
        then Throw BrowserError else Normal tt)
  /\ (forall pre e post,
        teardownCalls (globals s) = pre ++ e :: post ->
        existsb (raisesOn f) pre = false -> raisesOn f e = true ->
        completion (stopRecognition f s) = Throw BrowserError
        /\ calls (browser s') = calls (browser s) ++ pre ++ [e]).
Proof.
  cbv zeta. destruct (stopRecognition_core f s) as [G D].
  split; [now rewrite D|]. split; [assumption|]. split; [|split; [|split; [|split]]].
  - destruct (stopRecognition_prefix f s) as (done & rest & E & F & C).
    exists done, rest. rewrite F. auto.
  - intros FF. rewrite (stopRecognition_faultFree s FF). auto.
  - now rewrite stopRecognition_exact.
  - now rewrite stopRecognition_exact.
  - intros pre e post E P R.
    rewrite (stopRecognition_aborts f s pre e post E P R). auto.
Qed.

Lemma teardown_sequence_witness :
  (completion (stopRecognition noFaults (app listeningPage)) = Normal tt
   /\ calls (browser (finalState
                        (stopRecognition noFaults (app listeningPage))))
      = calls (browser (app listeningPage))
        ++ teardownCalls (globals (app listeningPage)))
  /\ (completion (stopRecognition disconnectFault (app listeningPage))
      = Throw BrowserError
      /\ calls (browser (finalState
                           (stopRecognition disconnectFault
                                            (app listeningPage))))
         = calls (browser (app listeningPage))
           ++ [TrackStop 10] ++ [ProcessorDisconnect 2]).
Proof.
  split.
  - apply (proj1 (proj2 (proj2 (proj2
             (teardown_sequence noFaults (app listeningPage)))))).
    repeat split; intros; reflexivity.
  - apply (proj2 (proj2 (proj2 (proj2 (proj2 (proj2
             (teardown_sequence disconnectFault (app listeningPage)))))))
             [TrackStop 10] (ProcessorDisconnect 2) [ContextClose 0]);
      reflexivity.
Defined.

(** C9: the start button is the only guard against a second start, and
    [updateTarget] re-opens it.  On a page that is capturing, a click on
    Next re-enables Start while the capture goes on, and the next click
    on Start acquires a second audio context, media stream and
    processor in place of the first, of which nothing is released. *)
Theorem restart_while_capturing :
  capturing (app listeningPage)
  /\ startDisabled (dom (app listeningPage)) = true
  /\ capturing (app advancedPage)
  /\ deliverable advancedPage (StartClick (MicGranted [20])) = true
  /\ audioContext (globals (app advancedPage)) = Some 0
  /\ audioContext (globals (app restartedPage)) = Some 3
  /\ mediaStream (globals (app advancedPage))
     = Some {| stream_id := 1; tracks := [10] |}
  /\ mediaStream (globals (app restartedPage))
     = Some {| stream_id := 4; tracks := [20] |}
  /\ processor (globals (app advancedPage)) = Some 2
  /\ processor (globals (app restartedPage)) = Some 5
  /\ feedbackText (dom (app advancedPage)) = FbEmpty
  /\ feedbackText (dom (app restartedPage)) = FbListening
  /\ called (app restartedPage) (ContextClose 0) = false
  /\ called (app restartedPage) (ProcessorDisconnect 2) = false
  /\ called (app restartedPage) (TrackStop 10) = false.
Proof.
  assert (C : forall p,
            globals (app p) = globals (app listeningPage) ->
            calls (browser (app p)) = calls (browser (app listeningPage)) ->
            capturing (app p)).
  { intros p G B. exists 0, {| stream_id := 1; tracks := [10] |}, 2.
    unfold called. rewrite G, B.
    split; [vm_compute; reflexivity|]. split; [vm_compute; reflexivity|].
    split; [vm_compute; reflexivity|]. split; [vm_compute; reflexivity|].
    split; [vm_compute; reflexivity|].
    intros t _. vm_compute. reflexivity. }
  split; [now apply C|]. split; [vm_compute; reflexivity|].
  split; [apply C; vm_compute; reflexivity|].
  repeat (split; [vm_compute; reflexivity|]).
  vm_compute. reflexivity.
Qed.

(* ================================================================== *)
(** * Further properties of the script *)
(* ================================================================== *)

(** ** The targets file *)

Section TargetsFile.

Lemma split_app_sep sep a b :
  split sep (a ++ sep :: b) = split sep a ++ split sep b.
Proof.
  induction a as [|c r IH]; simpl.
  - now rewrite Ascii.eqb_refl.
  - rewrite IH. destruct (Ascii.eqb c sep); [reflexivity|].
    apply consHead_app, split_nonempty.
Qed.

Lemma parseTargets_itemsOfText body : parseTargets body = itemsOfText body.
Proof. apply itemsOfText_trim. Qed.

Lemma split_no_sep sep s : forall f, In f (split sep s) -> ~ In sep f.
Proof.
  induction s as [|c r IH]; simpl; intros f H.
  - destruct H as [<-|[]]. intros [].
  - destruct (Ascii.eqb c sep) eqn:E.
    + destruct H as [<-|H]; [intros []|now apply IH].
    + destruct (split sep r) as [|g gs]; simpl in H.
      * destruct H as [<-|[]]. intros [->|[]].
        now rewrite Ascii.eqb_refl in E.
      * destruct H as [<-|H]; [|apply IH; now right].
        intros [->|H]; [now rewrite Ascii.eqb_refl in E|].
        apply (IH g); [now left|assumption].
Qed.

Lemma split_incl sep s : forall f, In f (split sep s) -> incl f s.
Proof.
  induction s as [|c r IH]; simpl; intros f H.
  - destruct H as [<-|[]]. apply incl_refl.
  - destruct (Ascii.eqb c sep).
    + destruct H as [<-|H]; [apply incl_nil_l|].
      apply incl_tl. now apply IH.
    + destruct (split sep r) as [|g gs]; simpl in H.
      * destruct H as [<-|[]]. intros x [<-|[]]. now left.
      * destruct H as [<-|H].
        -- intros x [<-|Hx]; [now left|right]. apply (IH g); [now left|assumption].
        -- apply incl_tl. apply IH. now right.
Qed.

Lemma trim_incl s : incl (trim s) s.
Proof.
  destruct (trim_decompose s) as (ws1 & ws2 & _ & _ & E).
  intros x Hx. rewrite E. apply in_or_app. right. apply in_or_app. now left.
Qed.

Lemma In_filterNotNull {A : Type} (a : A) l :
  In a (filterNotNull l) <-> In (Some a) l.
Proof.
  induction l as [|[b|] r IH]; simpl.
  - tauto.
  - rewrite IH. split; intros [H|H]; auto; left; congruence.
  - rewrite IH. split; [auto|]. intros [H|H]; [discriminate|assumption].
Qed.

Lemma trim_clean f line :
  In f (split comma line) -> ~ In newline line -> cleanField (trim f).
Proof.
  intros Hf Hn. split; [apply trim_tight|]. split; intros H.
  - apply trim_incl in H. exact (split_no_sep _ _ _ Hf H).
  - apply trim_incl in H. apply Hn. exact (split_incl _ _ _ Hf _ H).
Qed.

Lemma parseLine_clean line item :
  ~ In newline line -> parseLine line = Some item -> cleanItem item.
Proof.
  intros Hn. unfold parseLine.
  destruct (split comma line) as [|f0 [|f1 [|f2 [|f3 [|f4 fs]]]]] eqn:E;
    simpl; try discriminate.
  intros H. injection H as <-. unfold cleanItem. simpl.
  repeat split; try apply trim_tight;
    match goal with
    | |- ~ In _ (trim ?f) =>
        assert (Hf : In f (split comma line)) by (rewrite E; simpl; tauto);
        destruct (trim_clean _ _ Hf Hn) as (_ & Hc & Hl); assumption
    end.
Qed.

Lemma parsed_items_clean_aux body item :
  In item (parseTargets body) -> cleanItem item.
Proof.
  unfold parseTargets. cbv zeta. rewrite In_filterNotNull, in_map_iff.
  intros (line & P & L). apply (parseLine_clean line); [|assumption].
  exact (split_no_sep _ _ _ L).
Qed.

(** X1: every field of every parsed item is free of blanks at its ends
    and contains neither a comma nor a line feed. *)
Theorem parsed_items_clean body item :
  In item (parseTargets body) -> cleanItem item.
Proof. exact (parsed_items_clean_aux body item). Qed.

Lemma parsed_items_clean_witness :
  cleanItem (drillItem "touch_nose").
Proof.
  apply (parsed_items_clean sampleBody). vm_compute. left. reflexivity.
Defined.

Lemma parseTargets_app a b :
  parseTargets (a ++ newline :: b) = parseTargets a ++ parseTargets b.
Proof.
  rewrite !parseTargets_lines, split_app_sep. apply flat_map_app.
Qed.

(** X2: parsing distributes over the joining of two texts by a line
    feed: the targets of the whole are those of the first part followed
    by those of the second. *)
Theorem parse_concat a b :
  parseTargets (a ++ newline :: b) = parseTargets a ++ parseTargets b.
Proof. exact (parseTargets_app a b). Qed.

(** X3: a carriage return before a line feed, or at the end of the
    text, makes no difference to what is parsed. *)
Theorem parse_crlf a b :
  parseTargets (a ++ carriageReturn :: newline :: b)
  = parseTargets (a ++ newline :: b)
  /\ parseTargets (a ++ [carriageReturn]) = parseTargets a.
Proof.
  assert (E : parseTargets (a ++ [carriageReturn]) = parseTargets a).
  { rewrite !parseTargets_itemsOfText. now apply itemsOfText_snoc_white. }
  split; [|exact E].
  change (a ++ carriageReturn :: newline :: b)
    with (a ++ [carriageReturn] ++ newline :: b).
  now rewrite app_assoc, !parseTargets_app, E.
Qed.

(** X4: a text of blanks only (the empty text included) has no
    targets; loading it completes normally, shows the format error and
    leaves the Next button as it was. *)
Theorem blank_file_is_format_error body s :
  forallb isWhiteSpace body = true ->
  let r := onload (FetchResponse true body) s in
  parseTargets body = []
  /\ completion r = Normal tt
  /\ targets (globals (finalState r)) = []
  /\ promptText (dom (finalState r)) = PromptFormatError
  /\ nextDisabled (dom (finalState r)) = nextDisabled (dom s).
Proof.
  intros W.
  assert (E : parseTargets body = []).
  { rewrite parseTargets_itemsOfText.
    change body with ([] ++ body). now rewrite itemsOfText_white_suffix. }
  destruct (loadTargets_ok body s) as (C & T & _ & P & N).
  rewrite E in T, P, N.
  change (promptText
            (dom (finalState (loadTargets (FetchResponse true body) s)))
          = PromptFormatError) in P.
  change (nextDisabled
            (dom (finalState (loadTargets (FetchResponse true body) s)))
          = nextDisabled (dom s)) in N.
  cbv zeta. split; [assumption|].
  unfold onload, bind, finalState, completion in *.
  destruct (loadTargets (FetchResponse true body) s) as [c s1].
  simpl in *. subst c. rewrite (updateTarget_empty s1 T). simpl. auto.
Qed.

Lemma blank_file_is_format_error_witness :
  let r := onload (FetchResponse true [space; newline; carriageReturn; newline])
                  (initialState true true) in
  parseTargets [space; newline; carriageReturn; newline] = []
  /\ completion r = Normal tt
  /\ targets (globals (finalState r)) = []
  /\ promptText (dom (finalState r)) = PromptFormatError
  /\ nextDisabled (dom (finalState r)) = true.
Proof.
  apply (@blank_file_is_format_error
           [space; newline; carriageReturn; newline] (initialState true true)).
  reflexivity.
Defined.

End TargetsFile.

(** ** Grammar and matching *)

Section GrammarAndMatching.

Lemma trim_of_tight s : tight s -> trim s = s.
Proof.
  intros T. rewrite <- (app_nil_l s) at 1. rewrite <- (app_nil_r s) at 1.
  now apply trim_sandwich.
Qed.

Lemma toLowerCase_tight s : tight s -> tight (toLowerCase s).
Proof.
  intros T. rewrite <- (trim_of_tight T), <- trim_toLowerCase.
  apply trim_tight.
Qed.

Lemma grammarPhrase_replace t :
  grammarPhrase t = replaceUnderscores (toLowerCase (key t)).
Proof. apply join_split_replace. Qed.

Lemma replaceUnderscores_no_underscore s : ~ In underscore (replaceUnderscores s).
Proof.
  unfold replaceUnderscores. rewrite in_map_iff. intros (c & E & _).
  unfold underscoreToSpace in E.
  destruct (Ascii.eqb c underscore) eqn:Ec; [discriminate|].
  subst c. now rewrite Ascii.eqb_refl in Ec.
Qed.

(** X5: no phrase of the grammar contains an underscore, and each is
    left unchanged by lower-casing. *)
Theorem grammar_phrases_normal ts p :
  In p (grammarList ts) -> ~ In underscore p /\ toLowerCase p = p.
Proof.
  unfold grammarList. rewrite in_map_iff. intros (t & <- & _).
  rewrite grammarPhrase_replace. split.
  - apply replaceUnderscores_no_underscore.
  - now rewrite toLowerCase_replaceUnderscores, toLowerCase_idem.
Qed.

Lemma grammar_phrases_normal_witness :
  ~ In underscore (lit "touch nose")
  /\ toLowerCase (lit "touch nose") = lit "touch nose".
Proof.
  apply (@grammar_phrases_normal [drillItem "Touch_Nose"] (lit "touch nose")).
  vm_compute. left. reflexivity.
Defined.

(** X6: for every item of a parsed targets file, the key that
    [checkResult] compares with is the very phrase that
    [setupRecognizer] puts into the grammar. *)
Theorem checked_key_is_grammar_phrase body item :
  In item (parseTargets body) -> targetKeyOf (key item) = grammarPhrase item.
Proof.
  intros H. destruct (parsed_items_clean_aux body item H) as ((T & _) & _).
  rewrite targetKeyOf_replace, grammarPhrase_replace.
  now rewrite trim_toLowerCase, (trim_of_tight T).
Qed.

End GrammarAndMatching.

Section Matching.

Lemma checked_key_is_grammar_phrase_witness :
  targetKeyOf (key (drillItem "touch_nose"))
  = grammarPhrase (drillItem "touch_nose").
Proof.
  apply (checked_key_is_grammar_phrase sampleBody).
  vm_compute. left. reflexivity.
Defined.

Lemma recognizedOf_blanks ws1 t ws2 :
  forallb isWhiteSpace ws1 = true -> forallb isWhiteSpace ws2 = true ->
  recognizedOf (ws1 ++ t ++ ws2) = recognizedOf t.
Proof.
  intros H1 H2. unfold recognizedOf. rewrite !trim_toLowerCase. f_equal.
  destruct (trim_decompose t) as (v1 & v2 & V1 & V2 & E).
  rewrite E at 1.
  replace (ws1 ++ (v1 ++ trim t ++ v2) ++ ws2)
    with ((ws1 ++ v1) ++ trim t ++ (v2 ++ ws2))
    by (now rewrite <- !app_assoc).
  apply trim_sandwich; [| |apply trim_tight];
    rewrite forallb_app; apply andb_true_iff; auto.
Qed.

(** X7: the match is blind to letter case, in the heard text and in the
    key, and to blanks around the heard text. *)
Theorem match_ignores_case_and_blanks heard k confidence ws1 ws2 :
  forallb isWhiteSpace ws1 = true -> forallb isWhiteSpace ws2 = true ->
  isCorrectOf (recognizedOf (ws1 ++ toLowerCase heard ++ ws2))
              (targetKeyOf (toLowerCase k)) confidence
  = isCorrectOf (recognizedOf heard) (targetKeyOf k) confidence.
Proof.
  intros H1 H2. rewrite recognizedOf_blanks by assumption.
  unfold recognizedOf, targetKeyOf. now rewrite !toLowerCase_idem.
Qed.

Lemma match_ignores_case_and_blanks_witness :
  isCorrectOf (recognizedOf (lit "  " ++ toLowerCase (lit "Touch Nose")
                             ++ [newline]))
              (targetKeyOf (toLowerCase (lit "Touch_Nose"))) 0.5%float
  = isCorrectOf (recognizedOf (lit "Touch Nose"))
                (targetKeyOf (lit "Touch_Nose")) 0.5%float.
Proof.
  apply (@match_ignores_case_and_blanks (lit "Touch Nose") (lit "Touch_Nose")
           0.5%float (lit "  ") [newline]); reflexivity.
Defined.

(** X8: when the recogniser returns the grammar phrase of a parsed
    item whose key has no underscore at either end, the confidence
    alone decides. *)
Theorem own_phrase_judged_by_confidence body item confidence :
  In item (parseTargets body) -> boundaryFree (key item) ->
  isCorrectOf (recognizedOf (grammarPhrase item)) (targetKeyOf (key item))
              confidence
  = geb confidence CONFIDENCE_THRESHOLD.
Proof.
  intros H B. destruct (parsed_items_clean_aux body item H) as ((T & _) & _).
  assert (K : targetKeyOf (key item) = grammarPhrase item).
  { rewrite targetKeyOf_replace, grammarPhrase_replace.
    now rewrite trim_toLowerCase, (trim_of_tight T). }
  assert (P : tight (grammarPhrase item)).
  { rewrite grammarPhrase_replace. apply replaceUnderscores_tight.
    - now apply toLowerCase_tight.
    - now apply boundaryFree_toLowerCase. }
  assert (L : toLowerCase (grammarPhrase item) = grammarPhrase item).
  { rewrite grammarPhrase_replace, toLowerCase_replaceUnderscores.
    now rewrite toLowerCase_idem. }
  unfold isCorrectOf, recognizedOf.
  rewrite L, (trim_of_tight P), K, str_eqb_refl. reflexivity.
Qed.

Lemma own_phrase_judged_by_confidence_witness :
  isCorrectOf (recognizedOf (grammarPhrase (drillItem "touch_nose")))
              (targetKeyOf (key (drillItem "touch_nose"))) 0.5%float
  = geb 0.5%float CONFIDENCE_THRESHOLD.
Proof.
  apply (@own_phrase_judged_by_confidence sampleBody).
  - vm_compute. left. reflexivity.
  - split; vm_compute; discriminate.
Defined.

(** X9: [checkResult] decides on the first alternative alone: two
    final results that both have a text and share their first
    alternative are handled alike, whatever their texts and their
    further alternatives. *)
Theorem verdict_from_first_alternative r1 r2 s :
  text r1 <> None -> text r2 <> None ->
  bestAlternativeOf r1 = bestAlternativeOf r2 ->
  checkResult r1 s = checkResult r2 s.
Proof.
  intros T1 T2 E. unfold checkResult.
  destruct (text r1); [|now destruct T1].
  destruct (text r2); [|now destruct T2].
  unfold bind, gets. simpl. now rewrite E.
Qed.

Lemma verdict_from_first_alternative_witness :
  checkResult {| text := Some (lit "something else");
                 alternatives :=
                   Some [ {| alt_text := lit "touch nose"; conf := None |};
                          {| alt_text := lit "cat"; conf := None |} ] |}
              (drillState "touch_nose")
  = checkResult (outcome "touch nose" None) (drillState "touch_nose").
Proof.
  apply verdict_from_first_alternative.
  - discriminate.
  - discriminate.
  - reflexivity.
Defined.

End Matching.

(** ** Showing and advancing *)

Section Advancing.

Lemma updateTarget_shows s t :
  at_index (targets (globals s)) (currentTargetIndex (globals s)) = Some t ->
  completion (updateTarget s) = Normal tt
  /\ globals (finalState (updateTarget s)) = globals s
  /\ browser (finalState (updateTarget s)) = browser s
  /\ showing t (dom (finalState (updateTarget s)))
  /\ nextDisabled (dom (finalState (updateTarget s))) = nextDisabled (dom s)
  /\ feedbackColor (dom (finalState (updateTarget s))) = feedbackColor (dom s).
Proof.
  intros A. unfold updateTarget. step_monad.
  destruct (targets (globals s)) as [|x xs] eqn:T.
  - destruct (currentTargetIndex (globals s)) as [z|]; simpl in A;
      [|discriminate].
    destruct (z <? 0)%Z; [discriminate|].
    now destruct (Z.to_nat z).
  - simpl. rewrite A. simpl. unfold showing. simpl. repeat split.
Qed.

(** X10: an advance from a valid index shows the target at the next
    index (image, prompt, emptied feedback, the ready transcript, Start
    enabled); it leaves the feedback colour and the Next button as they
    were. *)
Theorem advance_shows_next s z t :
  currentTargetIndex (globals s) = Int z ->
  (0 <= z < Z.of_nat (length (targets (globals s))))%Z ->
  nth_error (targets (globals s))
            (Z.to_nat ((z + 1) mod Z.of_nat (length (targets (globals s)))))
  = Some t ->
  let s' := finalState (nextTarget s) in
  completion (nextTarget s) = Normal tt
  /\ showing t (dom s')
  /\ feedbackColor (dom s') = feedbackColor (dom s)
  /\ nextDisabled (dom s') = nextDisabled (dom s)
  /\ browser s' = browser s.
Proof.
  intros Ez Hz Ht. destruct (succRem_valid _ Hz) as [E B].
  unfold nextTarget. step_monad. rewrite Ez, E.
  match goal with |- context [updateTarget ?x] =>
    destruct (@updateTarget_shows x t) as (C & _ & Br & Sh & N & Col) end.
  { simpl. destruct (Z.ltb_spec ((z + 1) mod Z.of_nat
                       (length (targets (globals s)))) 0); [lia|assumption]. }
  unfold finalState, completion in *. auto.
Qed.

Lemma advance_shows_next_witness :
  let s' := finalState (nextTarget threeTargets) in
  completion (nextTarget threeTargets) = Normal tt
  /\ showing (drillItem "touch_nose") (dom s')
  /\ feedbackColor (dom s') = feedbackColor (dom threeTargets)
  /\ nextDisabled (dom s') = nextDisabled (dom threeTargets)
  /\ browser s' = browser threeTargets.
Proof.
  apply (@advance_shows_next threeTargets 0 (drillItem "touch_nose")).
  - reflexivity.
  - vm_compute. split; [discriminate|reflexivity].
  - reflexivity.
Defined.

(** X11: from any valid index i, k advances lead to (i + k) modulo N,
    and N advances lead back to i. *)
Theorem advance_from_any_index s z k :
  currentTargetIndex (globals s) = Int z ->
  (0 <= z < Z.of_nat (length (targets (globals s))))%Z ->
  let n := length (targets (globals s)) in
  completion (advance k s) = Normal tt
  /\ currentTargetIndex (globals (finalState (advance k s)))
     = Int ((z + Z.of_nat k) mod Z.of_nat n)
  /\ currentTargetIndex (globals (finalState (advance n s))) = Int z.
Proof.
  intros Ez Hz n.
  destruct (advance_index k s Ez Hz) as (C & E & _).
  destruct (advance_index n s Ez Hz) as (_ & En & _).
  split; [assumption|]. split; [assumption|].
  rewrite En. f_equal. fold n.
  rewrite <- (Z.mul_1_l (Z.of_nat n)) at 1.
  rewrite Z.mod_add by (fold n in Hz; lia).
  apply Z.mod_small. assumption.
Qed.

Lemma advance_from_any_index_witness :
  completion (advance 5 threeTargets) = Normal tt
  /\ currentTargetIndex (globals (finalState (advance 5 threeTargets)))
     = Int ((0 + Z.of_nat 5) mod Z.of_nat 3)
  /\ currentTargetIndex (globals (finalState (advance 3 threeTargets)))
     = Int 0.
Proof.
  apply (@advance_from_any_index threeTargets 0 5).
  - reflexivity.
  - vm_compute. split; [discriminate|reflexivity].
Defined.

(** X12: an advance on an empty target sequence does not throw and
    changes nothing on the page, but turns the index into NaN; and NaN
    stays: every later advance keeps it, and throws a TypeError before
    touching the page once targets exist. *)
Theorem advance_without_targets s :
  (targets (globals s) = [] ->
     completion (nextTarget s) = Normal tt
     /\ currentTargetIndex (globals (finalState (nextTarget s))) = NaN
     /\ dom (finalState (nextTarget s)) = dom s)
  /\ (currentTargetIndex (globals s) = NaN ->
      currentTargetIndex (globals (finalState (nextTarget s))) = NaN
      /\ dom (finalState (nextTarget s)) = dom s
      /\ (targets (globals s) <> [] ->
          completion (nextTarget s) = Throw TypeError)).
Proof.
  split.
  - intros T. unfold nextTarget. step_monad. rewrite T. simpl.
    unfold updateTarget. step_monad. rewrite T. simpl.
    now destruct (currentTargetIndex (globals s)).
  - intros I. unfold nextTarget. step_monad. rewrite I. simpl.
    unfold updateTarget. step_monad.
    destruct (targets (globals s)); simpl.
    + repeat split. intros N. now destruct N.
    + repeat split.
Qed.

Lemma advance_without_targets_witness :
  completion (nextTarget (initialState true false)) = Normal tt
  /\ currentTargetIndex
       (globals (finalState (nextTarget (initialState true false)))) = NaN
  /\ dom (finalState (nextTarget (initialState true false)))
     = dom (initialState true false).
Proof.
  apply (proj1 (advance_without_targets (initialState true false))).
  reflexivity.
Defined.

(** X13: a successful load from index 0 shows the first target at once
    and enables both buttons; the "Loaded N targets" prompt is
    overwritten within the same handler. *)
Theorem load_shows_first_target body s t ts :
  currentTargetIndex (globals s) = Int 0 ->
  parseTargets body = t :: ts ->
  let r := onload (FetchResponse true body) s in
  completion r = Normal tt
  /\ targets (globals (finalState r)) = t :: ts
  /\ showing t (dom (finalState r))
  /\ nextDisabled (dom (finalState r)) = false.
Proof.
  intros I P. destruct (loadTargets_ok body s) as (C & T & Ix & _ & N).
  rewrite P in T, N. rewrite I in Ix.
  change (nextDisabled
            (dom (finalState (loadTargets (FetchResponse true body) s)))
          = false) in N.
  cbv zeta. unfold onload, bind, finalState, completion in *.
  destruct (loadTargets (FetchResponse true body) s) as [c s1].
  simpl in *. subst c.
  destruct (@updateTarget_shows s1 t) as (C' & G & _ & Sh & N' & _).
  { now rewrite T, Ix. }
  unfold finalState, completion in *. rewrite G, N'. auto.
Qed.

Lemma load_shows_first_target_witness :
  let r := onload (FetchResponse true sampleBody) (initialState true true) in
  completion r = Normal tt
  /\ targets (globals (finalState r)) = [drillItem "touch_nose"]
  /\ showing (drillItem "touch_nose") (dom (finalState r))
  /\ nextDisabled (dom (finalState r)) = false.
Proof.
  apply (@load_shows_first_target sampleBody (initialState true true)).
  - reflexivity.
  - reflexivity.
Defined.

(** X14: were the Next button enabled in the markup, a click on it
    before the targets arrive would leave the index at NaN for good: the
    load then stops at the "Loaded N targets" prompt, its
    [updateTarget] throwing, and the index does not point into the
    targets. *)
Theorem next_before_load body startDisabled0 :
  parseTargets body <> [] ->
  let p := run (initialPage startDisabled0 false)
               [NextClick; WindowLoad (FetchResponse true body)] in
  currentTargetIndex (globals (app p)) = NaN
  /\ targets (globals (app p)) = parseTargets body
  /\ promptText (dom (app p)) = PromptLoaded (length (parseTargets body))
  /\ completion (updateTarget (app p)) = Throw TypeError
  /\ ~ indexInvariant (app p).
Proof.
  intros P. cbv zeta.
  set (s0 := withGlobals (set_currentTargetIndex NaN)
               (initialState startDisabled0 false)).
  assert (E : run (initialPage startDisabled0 false)
                  [NextClick; WindowLoad (FetchResponse true body)]
              = {| app := finalState (onload (FetchResponse true body) s0);
                   loadFired := true |}) by reflexivity.
  rewrite E. clear E. simpl app. unfold onload.
  destruct (loadTargets_ok body s0) as (C & T & Ix & Pr & _).
  change (currentTargetIndex (globals s0)) with NaN in Ix.
  destruct (parseTargets body) as [|t ts] eqn:EP; [now destruct P|].
  change (promptText
            (dom (finalState (loadTargets (FetchResponse true body) s0)))
          = PromptLoaded (length (t :: ts))) in Pr.
  unfold bind, finalState, completion in *.
  destruct (loadTargets (FetchResponse true body) s0) as [c s1].
  simpl in *. subst c.
  assert (U : updateTarget s1 = (Throw TypeError, s1)).
  { unfold updateTarget. step_monad. now rewrite T, Ix. }
  rewrite U. simpl. rewrite U. simpl.
  repeat split; try assumption.
  intros Inv. unfold indexInvariant, validIndex in Inv.
  destruct Inv as (z & Ez & _); [rewrite T; discriminate|congruence].
Qed.

Lemma next_before_load_witness :
  let p := run (initialPage true false)
               [NextClick; WindowLoad (FetchResponse true sampleBody)] in
  currentTargetIndex (globals (app p)) = NaN
  /\ targets (globals (app p)) = parseTargets sampleBody
  /\ promptText (dom (app p)) = PromptLoaded (length (parseTargets sampleBody))
  /\ completion (updateTarget (app p)) = Throw TypeError
  /\ ~ indexInvariant (app p).
Proof.
  apply (@next_before_load sampleBody true).
  vm_compute. discriminate.
Defined.

End Advancing.

(** ** Starting and stopping a capture *)

Section Capture.

Lemma startRecognition_granted s r ts :
  recognizer (globals s) = Some r ->
  let n := fresh (browser s) in
  let s' := finalState (startRecognition (MicGranted ts) s) in
  completion (startRecognition (MicGranted ts) s) = Normal tt
  /\ globals s'
     = set_processor (Some (S (S n)))
         (set_mediaStream (Some {| stream_id := S n; tracks := ts |})
            (set_audioContext (Some n) (globals s)))
  /\ calls (browser s') = calls (browser s) ++ captureCalls n
  /\ fresh (browser s') = S (S (S n))
  /\ startDisabled (dom s') = true
  /\ feedbackText (dom s') = FbListening
  /\ feedbackColor (dom s') = Blue.
Proof.
  intros R. unfold startRecognition. step_monad. rewrite R.
  unfold newObject. step_monad. repeat split.
  now rewrite <- !app_assoc.
Qed.

(** X15: a start with the recogniser ready and the microphone granted,
    followed by a teardown in which nothing raises, makes the seven
    acquiring calls on three fresh objects and then releases exactly
    these: the granted tracks, the processor and the audio context.
    The start button is disabled in between and enabled after; the
    globals keep the released objects. *)
Theorem start_then_stop s r ts f :
  recognizer (globals s) = Some r ->
  (forall t, In t ts -> trackStopThrows f t = false) ->
  disconnectThrows f = false -> closeThrows f = false ->
  let n := fresh (browser s) in
  let s1 := finalState (startRecognition (MicGranted ts) s) in
  let s2 := finalState (stopRecognition f s1) in
  completion (startRecognition (MicGranted ts) s) = Normal tt
  /\ completion (stopRecognition f s1) = Normal tt
  /\ startDisabled (dom s1) = true
  /\ startDisabled (dom s2) = false
  /\ calls (browser s2)
     = calls (browser s) ++ captureCalls n
       ++ map TrackStop ts ++ [ProcessorDisconnect (S (S n)); ContextClose n]
  /\ globals s2 = globals s1
  /\ audioContext (globals s2) = Some n.
Proof.
  intros R Ft Fd Fc n s1 s2.
  destruct (startRecognition_granted s ts R) as (C & G & L & _ & D & _).
  fold n in G, L. fold s1 in G, L, D.
  assert (FF : faultFree f (globals s1)).
  { rewrite G. repeat split; simpl; auto.
    intros ms t E. injection E as <-. simpl. apply Ft. }
  pose proof (stopRecognition_faultFree s1 FF) as S.
  unfold s2, finalState, completion. rewrite S. simpl.
  split; [assumption|]. split; [reflexivity|]. split; [assumption|].
  split; [reflexivity|]. split.
  - rewrite L, G. unfold teardownCalls. simpl. now rewrite <- app_assoc.
  - split; [reflexivity|]. now rewrite G.
Qed.

Lemma start_then_stop_witness :
  let s1 := finalState (startRecognition (MicGranted [10]) (app readyPage)) in
  let s2 := finalState (stopRecognition noFaults s1) in
  completion (startRecognition (MicGranted [10]) (app readyPage)) = Normal tt
  /\ completion (stopRecognition noFaults s1) = Normal tt
  /\ startDisabled (dom s1) = true
  /\ startDisabled (dom s2) = false
  /\ calls (browser s2)
     = calls (browser (app readyPage))
       ++ captureCalls (fresh (browser (app readyPage)))
       ++ map TrackStop [10]
       ++ [ProcessorDisconnect (S (S (fresh (browser (app readyPage)))));
           ContextClose (fresh (browser (app readyPage)))]
  /\ globals s2 = globals s1
  /\ audioContext (globals s2) = Some (fresh (browser (app readyPage))).
Proof.
  apply (@start_then_stop (app readyPage)
           {| grammar := buildGrammar (targets (globals (app readyPage))) |}
           [10] noFaults).
  - reflexivity.
  - reflexivity.
  - reflexivity.
  - reflexivity.
Defined.

Lemma startRecognition_denied s r name :
  recognizer (globals s) = Some r ->
  let n := fresh (browser s) in
  let s' := finalState (startRecognition (MicDenied name) s) in
  completion (startRecognition (MicDenied name) s) = Normal tt
  /\ startDisabled (dom s') = false
  /\ feedbackText (dom s') = FbMicError name
  /\ feedbackColor (dom s') = Red
  /\ globals s' = set_audioContext (Some n) (globals s)
  /\ calls (browser s')
     = calls (browser s) ++ [NewAudioContext n; GetUserMedia; ConsoleError].
Proof.
  intros R. unfold startRecognition. step_monad. rewrite R.
  unfold newObject, startRecognition_catch. step_monad. repeat split.
  now rewrite <- !app_assoc.
Qed.

(** X16: when the microphone is refused, the start gives the button
    back and shows the error in red; the audio context created before
    the request stays in the global and is not closed, and neither
    stream nor processor is set. *)
Theorem start_with_microphone_refused s r name :
  recognizer (globals s) = Some r ->
  let n := fresh (browser s) in
  let s' := finalState (startRecognition (MicDenied name) s) in
  completion (startRecognition (MicDenied name) s) = Normal tt
  /\ startDisabled (dom s') = false
  /\ feedbackText (dom s') = FbMicError name
  /\ feedbackColor (dom s') = Red
  /\ globals s' = set_audioContext (Some n) (globals s)
  /\ calls (browser s')
     = calls (browser s) ++ [NewAudioContext n; GetUserMedia; ConsoleError].
Proof. exact (startRecognition_denied s name). Qed.

Lemma start_with_microphone_refused_witness :
  let s' := finalState (startRecognition (MicDenied (lit "NotAllowedError"))
                                         (app readyPage)) in
  completion (startRecognition (MicDenied (lit "NotAllowedError"))
                               (app readyPage)) = Normal tt
  /\ startDisabled (dom s') = false
  /\ feedbackText (dom s') = FbMicError (lit "NotAllowedError")
  /\ feedbackColor (dom s') = Red
  /\ globals s'
     = set_audioContext (Some (fresh (browser (app readyPage))))
                        (globals (app readyPage))
  /\ calls (browser s')
     = calls (browser (app readyPage))
       ++ [NewAudioContext (fresh (browser (app readyPage)));
           GetUserMedia; ConsoleError].
Proof.
  apply (@start_with_microphone_refused (app readyPage)
           {| grammar := buildGrammar (targets (globals (app readyPage))) |}).
  reflexivity.
Defined.

(** X17: the teardown never clears what it releases: a second teardown
    repeats the calls of the first on the same objects. *)
Theorem teardown_twice s f1 f2 :
  faultFree f1 (globals s) -> faultFree f2 (globals s) ->
  let s1 := finalState (stopRecognition f1 s) in
  let s2 := finalState (stopRecognition f2 s1) in
  globals s2 = globals s
  /\ completion (stopRecognition f2 s1) = Normal tt
  /\ calls (browser s2)
     = calls (browser s) ++ teardownCalls (globals s)
       ++ teardownCalls (globals s).
Proof.
  intros F1 F2 s1 s2.
  pose proof (stopRecognition_faultFree s F1) as S1.
  assert (G1 : globals s1 = globals s)
    by (unfold s1, finalState; now rewrite S1).
  assert (F2' : faultFree f2 (globals s1)) by now rewrite G1.
  pose proof (stopRecognition_faultFree s1 F2') as S2.
  unfold s2, finalState, completion. rewrite S2. simpl.
  split; [assumption|]. split; [reflexivity|].
  rewrite G1. unfold s1, finalState. rewrite S1. simpl.
  now rewrite <- app_assoc.
Qed.

Lemma teardown_twice_witness :
  let s1 := finalState (stopRecognition noFaults (app listeningPage)) in
  let s2 := finalState (stopRecognition noFaults s1) in
  globals s2 = globals (app listeningPage)
  /\ completion (stopRecognition noFaults s1) = Normal tt
  /\ calls (browser s2)
     = calls (browser (app listeningPage))
       ++ teardownCalls (globals (app listeningPage))
       ++ teardownCalls (globals (app listeningPage)).
Proof.
  apply (@teardown_twice (app listeningPage) noFaults noFaults);
    repeat split; intros; reflexivity.
Defined.

Lemma startRecognition_uninitialized s mic :
  recognizer (globals s) = None ->
  let s' := finalState (startRecognition mic s) in
  completion (startRecognition mic s) = Normal tt
  /\ feedbackText (dom s') = FbInitializing
  /\ startDisabled (dom s') = startDisabled (dom s)
  /\ browser s' = browser s
  /\ recognizer (globals s')
     = match targets (globals s) with
       | [] => None
       | _ :: _ => Some {| grammar := buildGrammar (targets (globals s)) |}
       end
  /\ audioContext (globals s') = audioContext (globals s).
Proof.
  intros R. unfold startRecognition. step_monad. rewrite R.
  unfold setupRecognizer. step_monad.
  destruct (targets (globals s)); simpl; repeat split; assumption.
Qed.

(** X18: while no recogniser exists, a start never listens: it only
    shows the initialising message and builds the recogniser from the
    targets, if there are any; it asks the browser for nothing and
    leaves the buttons alone. *)
Theorem first_start_only_initializes s mic :
  recognizer (globals s) = None ->
  let s' := finalState (startRecognition mic s) in
  completion (startRecognition mic s) = Normal tt
  /\ feedbackText (dom s') = FbInitializing
  /\ startDisabled (dom s') = startDisabled (dom s)
  /\ browser s' = browser s
  /\ recognizer (globals s')
     = match targets (globals s) with
       | [] => None
       | _ :: _ => Some {| grammar := buildGrammar (targets (globals s)) |}
       end
  /\ audioContext (globals s') = audioContext (globals s).
Proof. exact (startRecognition_uninitialized s mic). Qed.

Lemma first_start_only_initializes_witness :
  let s := initialState false true in
  let s' := finalState (startRecognition (MicGranted [1]) s) in
  completion (startRecognition (MicGranted [1]) s) = Normal tt
  /\ feedbackText (dom s') = FbInitializing
  /\ startDisabled (dom s') = startDisabled (dom s)
  /\ browser s' = browser s
  /\ recognizer (globals s') = None
  /\ audioContext (globals s') = audioContext (globals s).
Proof.
  apply (@first_start_only_initializes (initialState false true)
           (MicGranted [1])).
  reflexivity.
Defined.

End Capture.

(** ** The page as a whole *)

Section WholePage.

Lemma onload_frame r s :
  recognizer (globals (finalState (onload r s))) = recognizer (globals s)
  /\ called (finalState (onload r s)) GetUserMedia = called s GetUserMedia.
Proof.
  unfold onload, bind, finalState.
  assert (L : recognizer (globals (snd (loadTargets r s)))
              = recognizer (globals s)
              /\ called (snd (loadTargets r s)) GetUserMedia
                 = called s GetUserMedia).
  { destruct r as [m|[|] body]; unfold loadTargets, loadTargets_catch;
      step_monad; unfold called; simpl;
      try (destruct (Nat.eqb _ 0); simpl);
      rewrite ?existsb_app; simpl; rewrite ?orb_false_r; auto. }
  pose proof (loadTargets_total r s) as C. unfold completion in C.
  destruct (loadTargets r s) as [c s1]. simpl in *. subst c.
  destruct L as [L1 L2]. rewrite <- L1, <- L2.
  pose proof (updateTarget_globals s1) as G. unfold finalState in G.
  rewrite G. split; [reflexivity|].
  unfold updateTarget. step_monad. unfold called.
  destruct (Nat.eqb _ 0); [reflexivity|].
  destruct (at_index _ _); reflexivity.
Qed.

Lemma dispatch_idle p e :
  sessionInvariant p -> idleWithoutTargets p ->
  idleWithoutTargets (dispatch p e).
Proof.
  intros J K. unfold dispatch. destruct (deliverable p e) eqn:D; [|assumption].
  unfold idleWithoutTargets. simpl app.
  destruct e as [r|mic| |result f|partial]; simpl in D; simpl handler.
  - intros _.
    assert (T : targets (globals (app p)) = []).
    { destruct (targets (globals (app p))) eqn:E; [reflexivity|].
      destruct J as [_ J1]. destruct J1 as [_ F]; [rewrite E; discriminate|].
      rewrite F in D. discriminate. }
    destruct (K T) as [R G]. destruct (onload_frame r (app p)) as [R' G'].
    now rewrite R', G'.
  - pose proof (startRecognition_core mic (app p)) as C.
    unfold sessionCore in C. injection C as Ct _ _. rewrite Ct. intros T.
    destruct (K T) as [R G].
    destruct (startRecognition_uninitialized (app p) mic R)
      as (_ & _ & _ & B & R' & _).
    rewrite T in R'. unfold called. now rewrite R', B.
  - rewrite nextTarget_globals. simpl. intros T.
    destruct J as [J0 _]. destruct (J0 T) as [_ N]. rewrite N in D.
    discriminate.
  - pose proof (onfinalresult_core result f (app p)) as C.
    unfold sessionCore in C. injection C as Ct _ _. rewrite Ct. intros T.
    destruct (K T) as [R _]. rewrite R in D. discriminate.
  - simpl. intros T. destruct (K T) as [R _]. rewrite R in D. discriminate.
Qed.

Lemma reachable_invariants b p :
  reachable (initialPage b true) p -> sessionInvariant p /\ idleWithoutTargets p.
Proof.
  intros R. induction R as [|p e R [J K]].
  - split; [apply sessionInvariant_init|]. intros _. split; reflexivity.
  - split; [now apply dispatch_session|now apply dispatch_idle].
Qed.

(** X19: on every page reached from the initial one (Next disabled in
    the markup), as long as no target is loaded - the load pending,
    failed, or without a valid line - no recogniser is built and the
    microphone is never asked for, whatever is clicked. *)
Theorem no_capture_without_targets startDisabled0 p :
  reachable (initialPage startDisabled0 true) p ->
  targets (globals (app p)) = [] ->
  recognizer (globals (app p)) = None
  /\ called (app p) GetUserMedia = false.
Proof.
  intros R. exact (proj2 (reachable_invariants R)).
Qed.

Lemma no_capture_without_targets_witness :
  let p := run (initialPage false true)
               [StartClick (MicGranted [1]);
                WindowLoad (FetchResponse false []);
                StartClick (MicGranted [1]); NextClick;
                StartClick (MicGranted [2])] in
  recognizer (globals (app p)) = None
  /\ called (app p) GetUserMedia = false.
Proof.
  apply (@no_capture_without_targets false).
  - cbv [run fold_left]. repeat apply reach_step. apply reach_init.
  - reflexivity.
Defined.

Lemma updateTarget_total s :
  indexInvariant s -> completion (updateTarget s) = Normal tt.
Proof.
  intros I. destruct (targets (globals s)) eqn:T.
  - now rewrite updateTarget_empty.
  - apply updateTarget_valid, I. rewrite T. discriminate.
Qed.

(** X20: on every page where the index is in order - without targets,
    index 0 and Next disabled; with targets, a valid index and the load
    fired - the load listener and a dispatched click on Next complete
    without throwing, [updateTarget] never reading a missing target, and
    leave the index in order. *)
Theorem load_and_advance_do_not_throw p e :
  sessionInvariant p ->
  deliverable p e = true ->
  (exists r, e = WindowLoad r) \/ e = NextClick ->
  completion (handler e (app p)) = Normal tt
  /\ sessionInvariant (dispatch p e).
Proof.
  intros J D E. split; [|now apply dispatch_session].
  destruct E as [[r ->]| ->]; simpl in D; simpl handler.
  - assert (L : loadFired p = false) by now destruct (loadFired p).
    pose proof (onload_session r L J) as J'.
    apply sessionInvariant_index in J'. simpl in J'.
    unfold onload, bind, finalState, completion in *.
    pose proof (loadTargets_total r (app p)) as C. unfold completion in C.
    destruct (loadTargets r (app p)) as [c s1]. simpl in *. subst c.
    apply updateTarget_total. intros N.
    pose proof (updateTarget_globals s1) as G. unfold finalState in G.
    unfold indexInvariant, validIndex in *. rewrite G in J'. now apply J'.
  - destruct J as [J0 J1].
    assert (N : targets (globals (app p)) <> []).
    { intros T. destruct (J0 T) as [_ X]. rewrite X in D. discriminate. }
    destruct (J1 N) as [[z [Ez Hz]] _].
    now destruct (nextTarget_valid (app p) Ez Hz).
Qed.

Lemma load_and_advance_do_not_throw_witness :
  completion (handler NextClick (app readyPage)) = Normal tt
  /\ sessionInvariant (dispatch readyPage NextClick).
Proof.
  apply (@load_and_advance_do_not_throw readyPage NextClick).
  - split.
    + intros T. vm_compute in T. discriminate T.
    + intros _. split; [|reflexivity].
      exists 0%Z. split; [reflexivity|].
      vm_compute. split; [discriminate|reflexivity].
  - reflexivity.
  - right. reflexivity.
Defined.

End WholePage.

(** ** The final result as JSON *)

Section JsonFacts.

Import Json.



Lemma checkResultJson_start s v t alts target :
  getProp (Some v) "text" = inr (Some (JStr t)) ->
  getProp (Some v) "alternatives" = inr alts ->
  at_index (targets (globals s)) (currentTargetIndex (globals s))
  = Some target ->
  checkResultJson v s
  = (if negb (truthyJson (bestOf alts)) then
       assignDom (set_feedbackText FbFailed) ;;
       assignDom (set_feedbackColor Red)
     else
       w <- liftE (getProp (bestOf alts) "text") ;;
       recognizedWord <- liftE (lowerTrimmed w) ;;
       c <- liftE (getProp (bestOf alts) "conf") ;;
       confidence <- liftE (confidenceOf c) ;;
       call ConsoleLog ;;
       (if isCorrectOf recognizedWord (targetKeyOf (key target)) confidence
        then
          assignDom (set_feedbackText (FbCorrect confidence)) ;;
          assignDom (set_feedbackColor Green)
        else
          assignDom (set_feedbackText
                       (FbTryAgain recognizedWord confidence)) ;;
          assignDom (set_feedbackColor Red)) ;;
       assignDom (set_transcriptText TrComplete)) s.
Proof.
  intros Ht Ha Hk. unfold checkResultJson.
  rewrite Ht. unfold bind at 1. unfold liftE at 1. unfold ret at 1.
  unfold bind at 1. unfold lowerTrimmed, liftE at 1. unfold ret at 1.
  unfold bind at 1. unfold gets at 1. rewrite Hk, Ha.
  unfold bind at 1. unfold liftE at 1. unfold ret at 1. reflexivity.
Qed.

(** X21: a final result whose text is a non-empty string, handled on a
    state with a valid index.  Without a usable first alternative it
    shows the failure feedback; with a first alternative whose text is a
    string and whose confidence is missing, falsy or a number it shows
    Correct or Incorrect; in both cases Start is enabled again and
    targets, index and Next are untouched.  With a first alternative
    whose text is no string, or whose confidence is truthy and no
    number, [checkResult] throws a TypeError before it writes anything:
    the page stays as it was, no verdict is shown and the teardown is
    skipped. *)
Theorem final_result_gives_verdict s v f t alts :
  validIndex s ->
  getProp (Some v) "text" = inr (Some (JStr t)) -> t <> [] ->
  getProp (Some v) "alternatives" = inr alts ->
  let r := onfinalresultJson (Some v) f s in
  (truthyJson (bestOf alts) = false ->
     verdictShown (finalState r) = Some NoSpeechDetected
     /\ startDisabled (dom (finalState r)) = false
     /\ sessionCore (finalState r) = sessionCore s)
  /\ (evaluable (bestOf alts) ->
      (verdictShown (finalState r) = Some Correct
       \/ verdictShown (finalState r) = Some Incorrect)
      /\ startDisabled (dom (finalState r)) = false
      /\ sessionCore (finalState r) = sessionCore s)
  /\ (textless (bestOf alts) \/ unratable (bestOf alts) ->
      r = (Throw TypeError, s)).
Proof.
  intros [z [Ez Hz]] Ht Hne Ha. destruct (at_index_valid _ Hz) as [target K].
  rewrite <- Ez in K. cbv zeta.
  assert (O : onfinalresultJson (Some v) f s
              = match checkResultJson v s with
                | (Normal _, s1) => stopRecognition f s1
                | (Throw e, s1) => (Throw e, s1)
                end).
  { unfold onfinalresultJson. rewrite Ht. unfold bind at 1.
    unfold liftE, ret. destruct t; [now destruct Hne|reflexivity]. }
  rewrite O. clear O.
  remember (checkResultJson v s) as cr eqn:Ecr.
  rewrite (checkResultJson_start s v Ht Ha K) in Ecr.
  assert (Tr : forall b w, getProp b "text" = inr (Some (JStr w))
                           -> truthyJson b = true).
  { intros b w E. destruct b as [[| | | | |]|]; simpl in E;
      try discriminate; reflexivity. }
  assert (After : forall s1,
            (verdictShown (finalState (stopRecognition f s1))
             = verdictShown s1)
            /\ startDisabled (dom (finalState (stopRecognition f s1))) = false
            /\ sessionCore (finalState (stopRecognition f s1))
               = sessionCore s1).
  { intros s1. destruct (stopRecognition_core f s1) as [G D].
    split; [unfold verdictShown; now rewrite D|].
    split; [now rewrite D|apply stopRecognition_sessionCore]. }
  split; [|split].
  - intros B. rewrite B in Ecr. change (negb false) with true in Ecr.
    cbv iota in Ecr.
    unfold bind, assignDom, modify in Ecr. subst cr.
    match goal with |- context [stopRecognition f ?x] =>
      destruct (After x) as (V & D & C) end.
    rewrite V, D, C. auto.
  - intros ((w & Ew) & (c & Ec & Hc)).
    assert (B : truthyJson (bestOf alts) = true) by exact (Tr _ w Ew).
    assert (Cf : exists x, confidenceOf c = inr x).
    { unfold confidenceOf. destruct Hc as [-> | [x ->]]; [eauto|].
      destruct (truthyJson (Some (JNum x))); eauto. }
    destruct Cf as [x Cf].
    rewrite B, Ew in Ecr. change (negb true) with false in Ecr.
    cbv iota in Ecr.
    unfold bind at 1 in Ecr. unfold liftE at 1 in Ecr. unfold ret at 1 in Ecr.
    unfold bind at 1 in Ecr. unfold lowerTrimmed, liftE at 1 in Ecr.
    unfold ret at 1 in Ecr.
    rewrite Ec in Ecr.
    unfold bind at 1 in Ecr. unfold liftE at 1 in Ecr. unfold ret at 1 in Ecr.
    rewrite Cf in Ecr.
    unfold bind at 1 in Ecr. unfold liftE at 1 in Ecr. unfold ret at 1 in Ecr.
    unfold bind, call, assignDom, modify in Ecr.
    destruct (isCorrectOf _ _ _); simpl in Ecr; subst cr;
      match goal with |- context [stopRecognition f ?y] =>
        destruct (After y) as (V & D & C) end;
      rewrite V, D, C; auto.
  - intros [[B Tl] | ((w & Ew) & (c & Ec & Hc & Hn))].
    + rewrite B in Ecr. change (negb true) with false in Ecr.
      cbv iota in Ecr.
      unfold bind at 1 in Ecr.
      destruct (getProp (bestOf alts) "text") as [e|[[| | |w| |]|]] eqn:E;
        try (now subst cr).
      * assert (e = TypeError) as ->.
        { destruct (bestOf alts) as [[| | | | |]|]; simpl in E;
            try discriminate; now injection E as <-. }
        now subst cr.
      * now destruct (Tl w).
    + assert (B : truthyJson (bestOf alts) = true) by exact (Tr _ w Ew).
      assert (Cf : confidenceOf c = inl TypeError).
      { unfold confidenceOf. rewrite Hc.
        destruct c as [[| |x| | |]|]; try reflexivity.
        now destruct (Hn x). }
      rewrite B, Ew in Ecr. change (negb true) with false in Ecr.
    cbv iota in Ecr.
      unfold bind at 1 in Ecr. unfold liftE at 1 in Ecr.
      unfold ret at 1 in Ecr.
      unfold bind at 1 in Ecr. unfold lowerTrimmed, liftE at 1 in Ecr.
      unfold ret at 1 in Ecr.
      rewrite Ec in Ecr.
      unfold bind at 1 in Ecr. unfold liftE at 1 in Ecr.
      unfold ret at 1 in Ecr.
      rewrite Cf in Ecr. unfold bind, liftE, throw in Ecr. now subst cr.
Qed.

Lemma final_result_gives_verdict_witness :
  (let r := onfinalresultJson (Some (encodeResult unrankedResult)) noFaults
                              (app listeningPage) in
   verdictShown (finalState r) = Some NoSpeechDetected
   /\ startDisabled (dom (finalState r)) = false
   /\ sessionCore (finalState r) = sessionCore (app listeningPage))
  /\ (let r := onfinalresultJson
                 (Some (encodeResult (outcome "touch nose" (Some 0.5%float))))
                 noFaults (app listeningPage) in
      (verdictShown (finalState r) = Some Correct
       \/ verdictShown (finalState r) = Some Incorrect)
      /\ startDisabled (dom (finalState r)) = false
      /\ sessionCore (finalState r) = sessionCore (app listeningPage))
  /\ onfinalresultJson (Some textlessPayload) noFaults (app listeningPage)
     = (Throw TypeError, app listeningPage).
Proof.
  assert (V : validIndex (app listeningPage)).
  { exists 0%Z. split; [reflexivity|].
    vm_compute. split; [discriminate|reflexivity]. }
  assert (N : lit "touch nose" <> []) by discriminate.
  split; [|split].
  - apply (proj1
             (@final_result_gives_verdict (app listeningPage)
                (encodeResult unrankedResult) noFaults (lit "touch nose")
                None V eq_refl N eq_refl)).
    reflexivity.
  - apply (proj1 (proj2
             (@final_result_gives_verdict (app listeningPage)
                (encodeResult (outcome "touch nose" (Some 0.5%float)))
                noFaults (lit "touch nose")
                (Some (JArr [encodeAlternative
                               {| alt_text := lit "touch nose";
                                  conf := Some 0.5%float |}]))
                V eq_refl N eq_refl))).
    split.
    + exists (lit "touch nose"). reflexivity.
    + exists (Some (JNum 0.5%float)). split; [reflexivity|].
      right. exists 0.5%float. reflexivity.
  - apply (proj2 (proj2
             (@final_result_gives_verdict (app listeningPage) textlessPayload
                noFaults (lit "touch nose")
                (Some (JArr [JObj [(lit "conf", JNum 0.9%float)]]))
                V eq_refl N eq_refl))).
    left. split; [reflexivity|]. intros w E. vm_compute in E. discriminate E.
Defined.

End JsonFacts.

(* ================================================================== *)
(** * Properties of the recogniser worker *)
(* ================================================================== *)

Section WorkerFacts.

Import Worker.

Lemma isCommand_eq v name :
  isCommand v name = true -> v = StringValue (lit name).
Proof.
  destruct v; simpl; try discriminate.
  intros H. apply str_eqb_eq in H. now subst.
Qed.

Ltac onmessage_cases w msg :=
  unfold onmessage;
  repeat match goal with
         | |- context [if isCommand ?v ?n then _ else _] =>
             destruct (isCommand v n)
         end;
  let R := fresh "R" in
  destruct (recognizerHeld w) eqn:R;
  try destruct (truthyValue _);
  simpl; rewrite ?R.

Lemma closed_run w es : closed w = true -> workerRun w es = w.
Proof.
  intros C. unfold workerRun. induction es as [|e r IH]; simpl; [reflexivity|].
  unfold workerStep at 2. now rewrite C.
Qed.

Lemma workerRun_cons w e es :
  workerRun w (e :: es) = workerRun (workerStep w e) es.
Proof. reflexivity. Qed.

Lemma step_initFailed w e :
  existsb isInitFailed (posted (workerStep w e))
  = existsb isInitFailed (posted w).
Proof.
  unfold workerStep. destruct (closed w); [reflexivity|].
  destruct e as [msg accepted|msg outcome].
  - onmessage_cases w msg; simpl; rewrite ?existsb_app; simpl;
      rewrite ?orb_false_r; reflexivity.
  - destruct outcome as [e|[|id [r|e]]]; simpl; rewrite ?existsb_app; simpl;
      rewrite ?orb_false_r; reflexivity.
Qed.

(** X22: whatever messages arrive and however the model loads settle,
    the worker never posts the "Model initialization failed" message:
    a model on which the recogniser could be built is never falsy. *)
Theorem init_failed_never_posted es :
  existsb isInitFailed (posted (workerRun initialWorker es)) = false.
Proof.
  assert (G : forall w, existsb isInitFailed (posted (workerRun w es))
                        = existsb isInitFailed (posted w)).
  { induction es as [|e r IH]; intros w; [reflexivity|].
    rewrite workerRun_cons, IH. apply step_initFailed. }
  now rewrite G.
Qed.

Lemma step_reply_id w e r :
  In r (posted (workerStep w e)) ->
  In r (posted w) \/ replyId r = eventId e.
Proof.
  unfold workerStep. destruct (closed w); [auto|].
  destruct e as [msg accepted|msg outcome].
  - onmessage_cases w msg; simpl; auto.
    rewrite in_app_iff. simpl. intros [H|[<-|[]]]; auto.
  - destruct outcome as [e|[|id [k|e]]]; simpl; auto;
      rewrite in_app_iff; simpl; intros [H|[<-|[]]]; auto.
Qed.

Lemma replies_from_requests r es : forall w pending,
  settlesFollowRequests pending es ->
  In r (posted (workerRun w es)) ->
  In r (posted w)
  \/ In (replyId r) (map callbackId pending)
  \/ In (replyId r) (receivedIds es).
Proof.
  induction es as [|e rest IH]; intros w pending S H; [now left|].
  rewrite workerRun_cons in H. destruct e as [msg accepted|msg outcome].
  - simpl in S. destruct (IH _ _ S H) as [H1|[H1|H1]].
    + destruct (step_reply_id _ _ _ H1) as [H2|H2]; [now left|].
      right. right. simpl. left. now symmetry.
    + destruct (isCommand (command msg) "initialize").
      * destruct H1 as [H1|H1].
        -- right. right. simpl. now left.
        -- right. now left.
      * right. now left.
    + right. right. simpl. now right.
  - simpl in S. destruct S as [P S].
    destruct (IH _ _ S H) as [H1|[H1|H1]].
    + destruct (step_reply_id _ _ _ H1) as [H2|H2]; [now left|].
      right. left. simpl in H2. rewrite H2. now apply in_map.
    + right. now left.
    + right. right. assumption.
Qed.

(** X23: every message the worker posts carries the callback identity
    of one of the messages it has received, every settling of a model
    load coming after the "initialize" message that asked for it. *)
Theorem replies_carry_callback_id es r :
  settlesFollowRequests [] es ->
  In r (posted (workerRun initialWorker es)) ->
  In (replyId r) (receivedIds es).
Proof.
  intros S H.
  destruct (replies_from_requests r es initialWorker [] S H) as [[]|[[]|H1]].
  assumption.
Qed.

Lemma replies_carry_callback_id_witness :
  In (NumberValue 3)
     (receivedIds
        [MessageEvent (sampleMessage "initialize" 3) Undefined;
         SettledEvent (sampleMessage "initialize" 3) (Rejected (lit "404"));
         MessageEvent (sampleMessage "process" 7) (StringValue (lit "{}"))]).
Proof.
  apply (@replies_carry_callback_id
           [MessageEvent (sampleMessage "initialize" 3) Undefined;
            SettledEvent (sampleMessage "initialize" 3) (Rejected (lit "404"));
            MessageEvent (sampleMessage "process" 7) (StringValue (lit "{}"))]
           (ReplyInitError (NumberValue 3) (ThrownValue (lit "404")))).
  - simpl. split; [left; reflexivity|exact I].
  - vm_compute. left. reflexivity.
Defined.

(** X24: as long as no recogniser is held, every message other than
    "initialize" and "terminate" - audio to process, words, a grammar,
    a reset, an unknown command - is dropped without a call and without
    a reply. *)
Theorem worker_idle_before_initialized msg accepted w :
  recognizerHeld w = None ->
  isCommand (command msg) "initialize" = false ->
  isCommand (command msg) "terminate" = false ->
  onmessage msg accepted w = w.
Proof.
  intros R I T. unfold onmessage. rewrite I, T, R.
  repeat match goal with
         | |- context [if isCommand ?v ?n then _ else _] =>
             destruct (isCommand v n)
         end; reflexivity.
Qed.

Lemma worker_idle_before_initialized_witness :
  onmessage (sampleMessage "process" 7) (StringValue (lit "{}")) initialWorker
  = initialWorker.
Proof.
  apply worker_idle_before_initialized; reflexivity.
Defined.

Lemma step_recognizer w e r :
  recognizerHeld (workerStep w e) = Some r ->
  recognizerHeld w = Some r
  \/ exists msg id, e = SettledEvent msg (Resolved (ModelObject id (Constructs r))).
Proof.
  unfold workerStep. destruct (closed w); [auto|].
  destruct e as [msg accepted|msg outcome].
  - onmessage_cases w msg; simpl; auto.
  - destruct outcome as [e|[|id [k|e]]]; simpl; auto.
    intros H. injection H as <-. right. eauto.
Qed.

Lemma step_recognizer_kept w e :
  recognizerHeld w <> None -> recognizerHeld (workerStep w e) <> None.
Proof.
  unfold workerStep. destruct (closed w); [auto|].
  destruct e as [msg accepted|msg outcome].
  - onmessage_cases w msg; simpl; auto.
  - destruct outcome as [e|[|id [k|e]]]; simpl; auto. discriminate.
Qed.

(** X25: the worker holds a recogniser only if a model load has
    resolved to a model that built it, and once it holds one no event
    makes it hold none, not even "terminate". *)
Theorem recognizer_provenance :
  (forall es r,
     recognizerHeld (workerRun initialWorker es) = Some r ->
     exists msg id,
       In (SettledEvent msg (Resolved (ModelObject id (Constructs r)))) es)
  /\ (forall w es,
        recognizerHeld w <> None ->
        recognizerHeld (workerRun w es) <> None).
Proof.
  split.
  - intros es r.
    assert (G : forall w,
              recognizerHeld (workerRun w es) = Some r ->
              recognizerHeld w = Some r
              \/ exists msg id,
                  In (SettledEvent msg
                        (Resolved (ModelObject id (Constructs r)))) es).
    { induction es as [|e rest IH]; intros w; [auto|].
      rewrite workerRun_cons. intros H.
      destruct (IH _ H) as [H1|(msg & id & H1)].
      - destruct (step_recognizer _ _ H1) as [H2|(msg & id & ->)];
          [now left|]. right. exists msg, id. now left.
      - right. exists msg, id. now right. }
    intros H. destruct (G _ H) as [H1|H1]; [discriminate|assumption].
  - intros w es. revert w. induction es as [|e rest IH]; intros w H;
      [assumption|].
    rewrite workerRun_cons. apply IH. now apply step_recognizer_kept.
Qed.

Lemma recognizer_provenance_witness :
  exists msg id,
    In (SettledEvent msg (Resolved (ModelObject id (Constructs 1))))
       [MessageEvent (sampleMessage "initialize" 3) Undefined;
        SettledEvent (sampleMessage "initialize" 3)
                     (Resolved (ModelObject 0 (Constructs 1)))].
Proof.
  apply (proj1 recognizer_provenance
           [MessageEvent (sampleMessage "initialize" 3) Undefined;
            SettledEvent (sampleMessage "initialize" 3)
                         (Resolved (ModelObject 0 (Constructs 1)))] 1).
  reflexivity.
Defined.

(** X26: a "terminate" message makes the worker terminate the
    recogniser, if it holds one, and close itself; it posts nothing,
    and nothing that arrives afterwards has any effect. *)
Theorem terminate_closes msg accepted w es :
  closed w = false ->
  isCommand (command msg) "terminate" = true ->
  let w' := workerRun w (MessageEvent msg accepted :: es) in
  closed w' = true
  /\ posted w' = posted w
  /\ libCalls w'
     = libCalls w
       ++ match recognizerHeld w with
          | Some r => [TerminateRecognizer r]
          | None => []
          end
       ++ [CloseWorker]
  /\ recognizerHeld w' = recognizerHeld w
  /\ model w' = model w.
Proof.
  intros C T. apply isCommand_eq in T. cbv zeta.
  rewrite workerRun_cons.
  assert (S : workerStep w (MessageEvent msg accepted)
              = onmessage msg accepted w)
    by (unfold workerStep; now rewrite C).
  assert (E : onmessage msg accepted w
              = setClosed
                  (libCall CloseWorker
                     match recognizerHeld w with
                     | Some r => libCall (TerminateRecognizer r) w
                     | None => w
                     end)).
  { unfold onmessage. rewrite T. reflexivity. }
  rewrite S, E, closed_run by reflexivity.
  destruct (recognizerHeld w) eqn:R; simpl; rewrite ?R;
    repeat split; try reflexivity.
  - now rewrite <- app_assoc.
Qed.

Lemma terminate_closes_witness :
  let w' := workerRun initialWorker
              [MessageEvent (sampleMessage "terminate" 9) Undefined;
               MessageEvent (sampleMessage "initialize" 3) Undefined] in
  closed w' = true
  /\ posted w' = posted initialWorker
  /\ libCalls w' = libCalls initialWorker ++ [] ++ [CloseWorker]
  /\ recognizerHeld w' = recognizerHeld initialWorker
  /\ model w' = model initialWorker.
Proof.
  apply (@terminate_closes (sampleMessage "terminate" 9) Undefined
           initialWorker
           [MessageEvent (sampleMessage "initialize" 3) Undefined]).
  - reflexivity.
  - reflexivity.
Defined.

(** X27: when a model load settles, the worker answers only on
    failure: a rejection, a falsy model or a model whose recogniser
    cannot be built yields exactly one "Initialization error" reply with
    the request's callback identity and leaves the recogniser as it
    was; a success installs the recogniser and posts nothing. *)
Theorem settle_replies_on_failure_only msg outcome w :
  let w' := onsettled msg outcome w in
  match outcome with
  | Resolved (ModelObject id (Constructs r)) =>
      posted w' = posted w
      /\ recognizerHeld w' = Some r
      /\ model w' = Some (ModelObject id (Constructs r))
  | _ =>
      (exists e, posted w' = posted w ++ [ReplyInitError (callbackId msg) e])
      /\ recognizerHeld w' = recognizerHeld w
  end.
Proof.
  destruct outcome as [e|[|id [r|e]]]; simpl; eauto.
Qed.

End WorkerFacts.

(** ** A failed load *)

Section FailedLoad.

(** X28: when the fetch is rejected or answers with a status that is
    not ok, the load at start-up completes normally: the error is
    written to the console and shown as the prompt (for a bad status,
    the "Could not find target.txt" message), and the globals and both
    buttons stay as they were. *)
Theorem load_failure_surfaced r s :
  (forall body, r <> FetchResponse true body) ->
  targets (globals s) = [] ->
  let s' := finalState (onload r s) in
  completion (onload r s) = Normal tt
  /\ globals s' = globals s
  /\ promptText (dom s')
     = PromptTargetError match r with
                         | FetchRejected message => message
                         | FetchResponse _ _ => couldNotFind
                         end
  /\ calls (browser s') = calls (browser s) ++ [ConsoleError]
  /\ nextDisabled (dom s') = nextDisabled (dom s)
  /\ startDisabled (dom s') = startDisabled (dom s).
Proof.
  intros H T. cbv zeta.
  assert (E : onload r s
              = (Normal tt,
                 withDom (set_promptText
                            (PromptTargetError
                               match r with
                               | FetchRejected message => message
                               | FetchResponse _ _ => couldNotFind
                               end))
                         (logged [ConsoleError] s))).
  { unfold onload, bind.
    assert (L : loadTargets r s
                = (Normal tt,
                   withDom (set_promptText
                              (PromptTargetError
                                 match r with
                                 | FetchRejected message => message
                                 | FetchResponse _ _ => couldNotFind
                                 end))
                           (logged [ConsoleError] s))).
    { destruct r as [m|[|] body]; [reflexivity|now destruct (H body)|
                                   reflexivity]. }
    rewrite L. now apply updateTarget_empty. }
  rewrite E. repeat split.
Qed.

Lemma load_failure_surfaced_witness :
  let s := initialState true true in
  let s' := finalState (onload (FetchResponse false []) s) in
  completion (onload (FetchResponse false []) s) = Normal tt
  /\ globals s' = globals s
  /\ promptText (dom s') = PromptTargetError couldNotFind
  /\ calls (browser s') = calls (browser s) ++ [ConsoleError]
  /\ nextDisabled (dom s') = nextDisabled (dom s)
  /\ startDisabled (dom s') = startDisabled (dom s).
Proof.
  apply (@load_failure_surfaced (FetchResponse false [])
           (initialState true true)).
  - discriminate.
  - reflexivity.
Defined.

End FailedLoad.
